(** * A shallow embedding of python_simulator/main.py

    The simulator drives a group of planar point robots towards a formation
    and filters the nominal command through a CBF quadratic program.  This
    file embeds the parameter set-up, the graph pre-calculations, the
    controller dispatch and the simulation loop of main.py, and states the
    properties of the written specification over that embedding.

    Conventions.
    - numpy float arrays are lists of exact rationals ([Q]); a matrix is a
      list of rows, the position history [p] (shape 2N x T) is kept as the
      list of its T columns, so that [p[:,i]] is [p !! i].
    - Python integers that index or label robots are [Z] (numpy accepts
      negative indices); step counts are [nat].
    - an exception raised by the program is [None]; a pass of the loop is
      the sequence of its three parts ([move_robots], [move_agent],
      [log_step]), so that what a pass has written before a later part
      raises can be stated on the earlier parts. *)

From Stdlib Require Import ZArith QArith Lqa Lia List Bool.
From stdpp Require Import base option list.
Import ListNotations.

Local Open Scope Q_scope.

(** ** Vectors and matrices *)

Abbreviation vec := (list Q).
Abbreviation matrix := (list (list Q)).

Definition zeros (n : nat) : vec := replicate n 0.
Definition zeros2 (rows cols : nat) : matrix := replicate rows (zeros cols).

Definition vadd (a b : vec) : vec := zip_with Qplus a b.
Definition vsub (a b : vec) : vec := zip_with Qminus a b.
Definition vscale (a : vec) (c : Q) : vec := map (fun x => x * c) a.
Definition vneg (a : vec) : vec := map Qopp a.
Definition vsum (a : vec) : Q := fold_right Qplus 0 a.
Definition dot (a b : vec) : Q := vsum (zip_with Qmult a b).
Definition mat_vec (M : matrix) (v : vec) : vec := map (fun row => dot row v) M.

(** Coordinate [k] of a vector, [0] outside its range (used in statements
    only, never where the program would raise). *)
Definition coord (v : vec) (k : nat) : Q := nth k v 0.

(** Entry [(i, j)] of a matrix, for statements. *)
Definition entry (M : matrix) (i j : nat) : Q := coord (nth i M []) j.

(** numpy index normalisation along an axis of length [n]: [k] in [0, n)
    is itself, [k] in [-n, 0) counts from the end, anything else raises
    IndexError. *)
Definition py_index (n : nat) (k : Z) : option nat :=
  if ((0 <=? k) && (k <? Z.of_nat n))%Z then Some (Z.to_nat k)
  else if ((- Z.of_nat n <=? k) && (k <? 0))%Z then Some (Z.to_nat (Z.of_nat n + k))
  else None.

(** [M[i, j] = x] for in-range [i], [j]. *)
Definition mat_set (M : matrix) (i j : nat) (x : Q) : matrix :=
  match M !! i with
  | Some row => <[i := <[j := x]> row]> M
  | None => M
  end.

(** ** Parameter setup (main.py, lines 24-86) *)

Record config := {
  winx : Z;
  winy : Z;
  freq : nat;
  max_T : nat;
  formation_positions : list (Q * Q);
  neighbours : list (list Z);
  cm : Z;
  oa : Z;
  d_cm : Q;
  d_oa : Q;
  alpha : Q;
  huil : Z;
  human_robot : Z;
  v_huil : Q;
  division : Z;
  wedge : bool;
  extra_robot : bool
}.

Definition dim : nat := 2.

Definition x_max (c : config) : Q := inject_Z (winx c - 5).
Definition y_max (c : config) : Q := inject_Z (winy c - 5).
Definition number_robots (c : config) : nat := length (formation_positions c).

(** [[i+1 for i in range(n) if i != j] for j in range(n)] *)
Definition complete_neighbours (n : nat) : list (list Z) :=
  map (fun j => map (fun i => Z.of_nat i + 1)%Z
                    (filter (fun i => i <> j) (seq 0 n)))
      (seq 0 n).

Definition default_formation : list (Q * Q) :=
  [ (0, 10); (0, 8); (0, 6); (0, 4); (0, 2); (0, 0); (0, -2); (0, -4);
    (0, -6); (0, -8); (0, -10);
    (10, 10); (8, 8); (6, 6); (4, 4); (2, 2); (2, -2); (4, -4); (6, -6);
    (8, -8); (10, -10) ].

Definition default_config : config := {|
  winx := 30;
  winy := 30;
  freq := 50;
  max_T := 60;
  formation_positions := default_formation;
  neighbours := complete_neighbours (length default_formation);
  cm := 0;
  oa := 1;
  d_cm := 3;
  d_oa := 11 # 10;
  alpha := 1;
  huil := 1;
  human_robot := Z.of_nat (length default_formation);
  v_huil := 5 # 2;
  division := 6;
  wedge := false;
  extra_robot := true
|}.

(** ** Pre-calculations (main.py, lines 89-131)

    The column names [robot_col] and [edges_col] that the same loops collect
    are kept as their lengths only: [1 + 2 * number_robots] and
    [1 + len(edges)]. *)

Definition edge := (Z * Z)%type.

(** [e in edges] for a tuple of two ints. *)
Definition edge_in (e : edge) (es : list edge) : bool :=
  existsb (fun e' => (fst e =? fst e')%Z && (snd e =? snd e')%Z) es.

Record graph := {
  number_neighbours : list nat;
  edges : list edge;
  L_G : matrix
}.

(** The inner loop [for j in neighbours[i]] (lines 104-107) for the robot
    of 0-based index [i] in a graph of [n] robots. *)
Fixpoint scan_neighbours (n i : nat) (js : list Z) (es : list edge) (L : matrix)
  : option (list edge * matrix) :=
  match js with
  | [] => Some (es, L)
  | j :: js' =>
      let r := (Z.of_nat i + 1)%Z in
      if negb (edge_in (r, j) es) && negb (edge_in (j, r) es) then
        c ← py_index n (j - 1)%Z;
        scan_neighbours n i js' (es ++ [(r, j)]) (mat_set L i c (-1))
      else scan_neighbours n i js' es L
  end.

(** The outer loop [for i in range(number_robots)] (lines 99-107), over the
    remaining indices [todo]. *)
Fixpoint scan_robots (n : nat) (nbs : list (list Z)) (todo : list nat) (g : graph)
  : option graph :=
  match todo with
  | [] => Some g
  | i :: todo' =>
      nb ← nbs !! i;
      let nn := number_neighbours g ++ [length nb] in
      let L1 := mat_set (L_G g) i i (inject_Z (Z.of_nat (length nb))) in
      '(es, L2) ← scan_neighbours n i nb (edges g) L1;
      scan_robots n nbs todo' {| number_neighbours := nn; edges := es; L_G := L2 |}
  end.

Definition build_graph (c : config) : option graph :=
  let n := number_robots c in
  scan_robots n (neighbours c) (seq 0 n)
    {| number_neighbours := []; edges := []; L_G := zeros2 n n |}.

(** [p_d = np.reshape(formation_positions, number_robots*dim)] *)
Definition p_d (c : config) : vec :=
  flat_map (fun xy => [fst xy; snd xy]) (formation_positions c).

(** Slice assignments [row[c0:c0+len(vals)] = vals] and
    [M[r0:r0+len(B), c0:c0+width(B)] = B]. *)
Fixpoint set_row_slice (row : vec) (c0 : nat) (vals : vec) : vec :=
  match vals with
  | [] => row
  | x :: vals' => set_row_slice (<[c0 := x]> row) (S c0) vals'
  end.

Fixpoint set_block (M : matrix) (r0 c0 : nat) (B : matrix) : matrix :=
  match B with
  | [] => M
  | brow :: B' =>
      set_block (alter (fun row => set_row_slice row c0 brow) r0 M) (S r0) c0 B'
  end.

(** [As = np.array([[-1, 0], [1, 0], [0, -1], [0, 1]])] *)
Definition As : matrix := [ [-1; 0]; [1; 0]; [0; -1]; [0; 1] ].

(** [Aw = np.array([[-y_max/(2*x_max), -1], [-y_max/(2*x_max), 1]])]; the
    quotient of two Python ints raises ZeroDivisionError when [x_max = 0]. *)
Definition Aw (c : config) : option matrix :=
  if Qeq_bool (2 * x_max c) 0 then None
  else Some [ [- y_max c / (2 * x_max c); -1]; [- y_max c / (2 * x_max c); 1] ].

(** The loop of lines 123-125, over the robot indices [todo]. *)
Fixpoint fill_blocks (aw : matrix) (todo : list nat) (Aa Awd : matrix)
  : matrix * matrix :=
  match todo with
  | [] => (Aa, Awd)
  | i :: todo' =>
      fill_blocks aw todo'
        (set_block Aa (4 * i) (2 * i) As)
        (set_block Awd (2 * i) (2 * i) aw)
  end.

Record precalc := {
  pc_graph : graph;
  pc_p_d : vec;
  A_arena : matrix;
  A_wedge : matrix;
  b_arena : vec;
  b_wedge : vec;
  A_extra : matrix;
  b_extra : vec
}.

Definition precalculate (c : config) : option precalc :=
  let n := number_robots c in
  g ← build_graph c;
  aw ← Aw c;
  let '(Aa, Awd) :=
    fill_blocks aw (seq 0 n) (zeros2 (n * 4) (n * 2)) (zeros2 (n * 2) (n * 2)) in
  Some {| pc_graph := g;
          pc_p_d := p_d c;
          A_arena := Aa;
          A_wedge := Awd;
          b_arena := zeros (n * 4);
          b_wedge := zeros (n * 2);
          A_extra := zeros2 n (n * dim);
          b_extra := zeros n |}.

(** ** The functions of the auxiliary module

    main.py takes them with [from auxiliary import *]; the module itself is
    not part of the sources at hand. *)

(** [np.kron(L, np.eye(2))]: every row of [L] gives an x-row and a y-row. *)
Definition kron_I2 (L : matrix) : matrix :=
  flat_map (fun row => [ flat_map (fun x => [x; 0]) row;
                         flat_map (fun x => [0; x]) row ]) L.

(** Modelled from the spec: [formationController(L_G, p, p_d)] of the absent
    auxiliary module, "the standard Laplacian consensus law
    u_nom = -(L (x) I2)(p - p_d)", computed from the Laplacian the caller
    passes (the neighbour lists are not an argument of the call). *)
Definition formationController (L : matrix) (p pd : vec) : vec :=
  vneg (mat_vec (kron_I2 L) (vsub p pd)).

(** Modelled from the spec: [systemDynamics(p, u)] of the absent auxiliary
    module, "single-integrator dynamics: s' = u for each robot". *)
Definition systemDynamics (p u : vec) : vec := u.

(** The arguments shared by the three safety controllers of the dispatch
    (lines 190-196), in call order. *)
Record cbf_args := {
  a_p : vec;
  a_u_n : vec;
  a_cm : Z;
  a_oa : Z;
  a_d_cm : Q;
  a_d_oa : Q;
  a_number_robots : nat;
  a_edges : list edge;
  a_dim : nat;
  a_alpha : Q;
  a_A_arena : matrix;
  a_b_arena : vec;
  a_x_max : Q;
  a_x_min : Q;
  a_y_max : Q;
  a_y_min : Q
}.

(** A call of one of [cbfControllerWArenaExtra], [cbfControllerWArenaWedge],
    [cbfControllerWArena] with its remaining arguments. *)
Inductive cbf_call :=
  | CallWArenaExtra (a : cbf_args) (Ae : matrix) (be : vec) (d_extra : Q)
                    (hp : vec) (vx vy : Q)
  | CallWArenaWedge (a : cbf_args) (Awd : matrix) (bw : vec)
  | CallWArena (a : cbf_args).

Definition call_args (k : cbf_call) : cbf_args :=
  match k with
  | CallWArenaExtra a _ _ _ _ _ _ => a
  | CallWArenaWedge a _ _ => a
  | CallWArena a => a
  end.

(** The constraint families a call hands to the safety controller as
    matrices: the arena rows, the wedge rows, the extra-robot rows. *)
Definition arena_rows (k : cbf_call) : option (matrix * vec) :=
  Some (a_A_arena (call_args k), a_b_arena (call_args k)).

Definition wedge_rows (k : cbf_call) : option (matrix * vec) :=
  match k with
  | CallWArenaWedge _ Awd bw => Some (Awd, bw)
  | _ => None
  end.

Definition extra_rows (k : cbf_call) : option (matrix * vec) :=
  match k with
  | CallWArenaExtra _ Ae be _ _ _ _ => Some (Ae, be)
  | _ => None
  end.

(** ** Logging tables and simulation state (main.py, lines 134-175) *)

Abbreviation table := (list (list Q)).

Record sim_state := {
  p : list vec;
  huil_p : list vec;
  df_cbf_cm : table;
  df_cbf_oa : table;
  df_controller : table;
  df_nom_controller : table;
  df_huil_controller : table
}.

(** The names the logging block (lines 207-229) reads and main.py does not
    bind: the attributes of [self], [time], [uhuilx], [uhuily]. *)
Record log_names := {
  self_cbf_cm : list Q;
  self_cbf_oa : list Q;
  self_controller : list Q;
  self_nom_controller : list Q;
  time : Q;
  uhuilx : Q;
  uhuily : Q
}.

(** The values a step computes and does not keep. *)
Record transients := {
  t_u_nom : vec;
  t_u_n : vec;
  t_u : vec;
  t_pdot : vec;
  t_huil_pdot : option vec
}.

(** [row[0] = t] on a Python sequence: IndexError when it is empty. *)
Definition set_head (row : list Q) (t : Q) : option (list Q) :=
  match row with
  | [] => None
  | _ :: _ => Some (<[0%nat := t]> row)
  end.

(** [df.append(pd.DataFrame(np.array([row]), columns=cols))] for a frame of
    [ncols] columns: the row is added at the end; a row of another width
    makes the DataFrame constructor raise. *)
Definition df_append (ncols : nat) (df : table) (row : list Q) : option table :=
  guard (length row = ncols);; Some (df ++ [row]).

Definition max_time_size (c : config) : nat := (max_T c * freq c)%nat.

(** [1/freq], a true division under [from __future__ import division]. *)
Definition dt (c : config) : Q := 1 / inject_Z (Z.of_nat (freq c)).

Section Driver.

(** The functions of the auxiliary module the loop calls and the
    specification leaves open. *)

(** [huilController(u_nom, huil, human_robot, i, max_time_size, v_huil, division)] *)
Variable huilController : vec -> Z -> Z -> nat -> nat -> Q -> Z -> vec.

(** The three safety controllers; [None] when the call raises. *)
Variable cbfController : cbf_call -> option vec.

(** Modelled from the spec: [extraRobotDynamics(i, max_time_size, v_huil,
    division)] of the absent auxiliary module, "a deterministic,
    piecewise-defined velocity law parameterized by elapsed step count, total
    step count, a speed magnitude, and a number-of-segments divisor". *)
Variable extraRobotDynamics : nat -> nat -> Q -> Z -> vec.

(** The names of the logging block, [None] when they are unbound
    (NameError). *)
Variable names : option log_names.

(** The draw of [np.random.rand]: component [k] of the random vector. *)
Variable rand : nat -> Q.

(** Lines 183-187. *)
Definition apply_huil (c : config) (i : nat) (u_nom : vec) : vec :=
  if extra_robot c then u_nom
  else huilController u_nom (huil c) (human_robot c) i (max_time_size c)
         (v_huil c) (division c).

(** Lines 189-196: which controller is called, and with what. *)
Definition dispatch (c : config) (pc : precalc) (pi u_n : vec) (hp : option vec)
  : option cbf_call :=
  let a := {| a_p := pi; a_u_n := u_n; a_cm := cm c; a_oa := oa c;
              a_d_cm := d_cm c; a_d_oa := d_oa c;
              a_number_robots := number_robots c;
              a_edges := edges (pc_graph pc); a_dim := dim;
              a_alpha := alpha c;
              a_A_arena := A_arena pc; a_b_arena := b_arena pc;
              a_x_max := x_max c; a_x_min := - x_max c;
              a_y_max := y_max c; a_y_min := - y_max c |} in
  if extra_robot c then
    h ← hp;
    Some (CallWArenaExtra a (A_extra pc) (b_extra pc) (d_oa c) h
            (v_huil c) (v_huil c))
  else if wedge c then Some (CallWArenaWedge a (A_wedge pc) (b_wedge pc))
  else Some (CallWArena a).

(** Lines 207-229. *)
Definition log_step (c : config) (pc : precalc) (st : sim_state)
  : option sim_state :=
  nm ← names;
  let ecols := S (length (edges (pc_graph pc))) in
  let rcols := S (2 * number_robots c) in
  r1 ← set_head (self_cbf_cm nm) (time nm);
  d1 ← df_append ecols (df_cbf_cm st) r1;
  r2 ← set_head (self_cbf_oa nm) (time nm);
  d2 ← df_append ecols (df_cbf_oa st) r2;
  r3 ← set_head (self_controller nm) (time nm);
  d3 ← df_append rcols (df_controller st) r3;
  r4 ← set_head (self_nom_controller nm) (time nm);
  d4 ← df_append rcols (df_nom_controller st) r4;
  d5 ← df_append 3 (df_huil_controller st) [time nm; uhuilx nm; uhuily nm];
  Some {| p := p st; huil_p := huil_p st;
          df_cbf_cm := d1; df_cbf_oa := d2; df_controller := d3;
          df_nom_controller := d4; df_huil_controller := d5 |}.

(** [M[:, k] = col] on an array with columns of length [n]: IndexError for
    a column out of range, ValueError for a [col] of another shape. *)
Definition set_col (n : nat) (M : list vec) (k : nat) (col : vec)
  : option (list vec) :=
  guard (k < length M)%nat;; guard (length col = n);; Some (<[k := col]> M).

(** numpy's stretching of an array of one element over [n] entries; an
    array of any other length is left as it is. *)
Definition stretch (n : nat) (a : vec) : vec :=
  match a with
  | [x] => replicate n x
  | _ => a
  end.

(** An operation on two one-dimensional arrays under numpy's broadcasting:
    arrays of one length go entry by entry, an array of one element is
    stretched over the other, any other pair of lengths is a ValueError. *)
Definition broadcast (f : Q -> Q -> Q) (a b : vec) : option vec :=
  let a' := stretch (length b) a in
  let b' := stretch (length a) b in
  guard (length a' = length b');; Some (zip_with f a' b').

(** [v*(1/freq) + x]: ZeroDivisionError for [freq = 0], and the sum is
    numpy's, with its broadcasting. *)
Definition euler (c : config) (v x : vec) : option vec :=
  guard (freq c <> 0%nat);; broadcast Qplus (vscale v (dt c)) x.

(** What lines 180-200 of a pass compute, and [p] after line 200. *)
Record robot_pass := {
  m_u_nom : vec;
  m_u_n : vec;
  m_call : cbf_call;
  m_u : vec;
  m_pdot : vec;
  m_p : list vec
}.

(** Lines 180-200 of pass [i]: the nominal command, the HuIL override, the
    safety controller and the new column of [p]. *)
Definition move_robots (c : config) (pc : precalc) (i : nat) (st : sim_state)
  : option robot_pass :=
  pi ← p st !! i;
  let u_nom := formationController (L_G (pc_graph pc)) pi (pc_p_d pc) in
  let u_n := apply_huil c i u_nom in
  k ← dispatch c pc pi u_n (huil_p st !! i);
  u ← cbfController k;
  let pdot := systemDynamics pi u in
  pnext ← euler c pdot pi;
  p' ← set_col (number_robots c * dim) (p st) (S i) pnext;
  Some {| m_u_nom := u_nom; m_u_n := u_n; m_call := k; m_u := u;
          m_pdot := pdot; m_p := p' |}.

(** Lines 202-205 of pass [i]: [huil_p] after them, and [huil_pdot] when it
    was computed. *)
Definition move_agent (c : config) (i : nat) (st : sim_state)
  : option (list vec * option vec) :=
  if extra_robot c then
    let huil_pdot :=
      extraRobotDynamics i (max_time_size c) (v_huil c) (division c) in
    h ← huil_p st !! i;
    hnext ← euler c huil_pdot h;
    hp' ← set_col dim (huil_p st) (S i) hnext;
    Some (hp', Some huil_pdot)
  else Some (huil_p st, None).

(** One pass of the loop body (lines 180-229) at loop index [i]: the robots,
    the extra robot, the logging block. *)
Definition step (c : config) (pc : precalc) (i : nat) (st : sim_state)
  : option (sim_state * transients) :=
  m ← move_robots c pc i st;
  a ← move_agent c i st;
  st' ← log_step c pc
          {| p := m_p m; huil_p := fst a;
             df_cbf_cm := df_cbf_cm st; df_cbf_oa := df_cbf_oa st;
             df_controller := df_controller st;
             df_nom_controller := df_nom_controller st;
             df_huil_controller := df_huil_controller st |};
  Some (st', {| t_u_nom := m_u_nom m; t_u_n := m_u_n m; t_u := m_u m;
                t_pdot := m_pdot m; t_huil_pdot := snd a |}).

(** [for i in range(max_time_size-1)], over the remaining indices. *)
Fixpoint loop (c : config) (pc : precalc) (todo : list nat) (st : sim_state)
  : option sim_state :=
  match todo with
  | [] => Some st
  | i :: todo' => r ← step c pc i st; loop c pc todo' (fst r)
  end.

(** [x_max*np.random.rand(number_robots*dim) - x_max/2] *)
Definition initial_positions (c : config) : vec :=
  map (fun k => x_max c * rand k - x_max c / 2) (seq 0 (number_robots c * dim)).

(** Lines 148-175: the empty frames, the zero histories and their first
    columns.  The frame of the HuIL log takes two of the robot column names
    by index. *)
Definition initial_state (c : config) : option sim_state :=
  let T := max_time_size c in
  let ncol := S (2 * number_robots c) in
  py_index ncol (2 * human_robot c - 1)%Z;;
  py_index ncol (2 * human_robot c)%Z;;
  p0 ← set_col (number_robots c * dim)
         (replicate T (zeros (number_robots c * dim))) 0 (initial_positions c);
  h0 ← set_col dim (replicate T (zeros dim)) 0 [-5; 20];
  Some {| p := p0; huil_p := h0;
          df_cbf_cm := []; df_cbf_oa := []; df_controller := [];
          df_nom_controller := []; df_huil_controller := [] |}.

(** The whole run up to the end of the simulation loop. *)
Definition simulate (c : config) : option sim_state :=
  pc ← precalculate c;
  st0 ← initial_state c;
  loop c pc (seq 0 (max_time_size c - 1)) st0.

(** The states in which a run enters pass [i] of the loop: the initial
    state for pass 0, and for the next pass the state a pass that went
    through has left.  A pass that raises has no successor. *)
Inductive head_of_pass (c : config) (pc : precalc) : nat -> sim_state -> Prop :=
  | head_first st0 :
      precalculate c = Some pc ->
      initial_state c = Some st0 ->
      (0 < max_time_size c - 1)%nat ->
      head_of_pass c pc 0 st0
  | head_next i st r :
      head_of_pass c pc i st ->
      step c pc i st = Some r ->
      (S i < max_time_size c - 1)%nat ->
      head_of_pass c pc (S i) (fst r).

End Driver.

(** ** The specification's side of the comparison *)

(** Equality of vectors up to the representation of their rationals. *)
Definition vec_eq (a b : vec) : Prop := Forall2 Qeq a b.

(** The consensus law as the specification words it: for robot [i] (0-based),
    the sum over its listed neighbours [j] (1-based labels) of
    [(p_j - p_i) - (p_d,j - p_d,i)], coordinate by coordinate. *)
Definition neighbour_term (q qd : vec) (i : nat) (axis : nat) (j : Z) : Q :=
  let j0 := Z.to_nat (j - 1) in
  (coord q (2 * j0 + axis) - coord q (2 * i + axis))
  - (coord qd (2 * j0 + axis) - coord qd (2 * i + axis)).

Definition neighbour_sum (nbs : list (list Z)) (q qd : vec) (i axis : nat) : Q :=
  vsum (map (neighbour_term q qd i axis) (nth i nbs [])).

Definition consensus_law (nbs : list (list Z)) (q qd : vec) : vec :=
  flat_map (fun i => [neighbour_sum nbs q qd i 0; neighbour_sum nbs q qd i 1])
           (seq 0 (length nbs)).

(** The stacked system [A u <= b], row by row. *)
Definition feasible (A : matrix) (b u : vec) : Prop :=
  Forall2 (fun row bi => dot row u <= bi) A b.

Definition strictly_feasible (A : matrix) (b u : vec) : Prop :=
  Forall2 (fun row bi => dot row u < bi) A b.

(** The objective [|u - u_nom|^2]. *)
Definition cost (u_nom u : vec) : Q :=
  vsum (map (fun d => d * d) (vsub u u_nom)).

(** Modelled from the spec: the safety QP solver of the absent auxiliary
    module, "solves min_u |u - u_nom|^2 subject to A u <= b, decision
    dimension 2N": [u] is a result of the solve when it is feasible and no
    feasible command of that dimension is closer to [u_nom]. *)
Definition qp_solution (A : matrix) (b u_nom u : vec) : Prop :=
  length u = length u_nom /\
  feasible A b u /\
  forall v, length v = length u_nom -> feasible A b v ->
            cost u_nom u <= cost u_nom v.




(** The number of passes of the simulation loop,
    [len(range(max_time_size-1))]. *)
Definition loop_passes (c : config) : nat := length (seq 0 (max_time_size c - 1)).

(** ** Concrete instances used to exercise the statements *)

(** Two robots facing each other, four columns of history. *)
Definition small_config : config := {|
  winx := 30;
  winy := 30;
  freq := 4;
  max_T := 1;
  formation_positions := [ (0, 2); (0, -2) ];
  neighbours := complete_neighbours 2;
  cm := 0;
  oa := 1;
  d_cm := 3;
  d_oa := 11 # 10;
  alpha := 1;
  huil := 1;
  human_robot := 2;
  v_huil := 5 # 2;
  division := 6;
  wedge := false;
  extra_robot := true
|}.

(** The same robots in the wedge region, without the extra robot. *)
Definition wedge_config : config := {|
  winx := 30;
  winy := 30;
  freq := 4;
  max_T := 1;
  formation_positions := [ (0, 2); (0, -2) ];
  neighbours := complete_neighbours 2;
  cm := 0;
  oa := 1;
  d_cm := 3;
  d_oa := 11 # 10;
  alpha := 1;
  huil := 1;
  human_robot := 2;
  v_huil := 5 # 2;
  division := 6;
  wedge := true;
  extra_robot := false
|}.

(** The wedge flag set together with the extra robot. *)
Definition wedge_extra_config : config := {|
  winx := 30;
  winy := 30;
  freq := 4;
  max_T := 1;
  formation_positions := [ (0, 2); (0, -2) ];
  neighbours := complete_neighbours 2;
  cm := 0;
  oa := 1;
  d_cm := 3;
  d_oa := 11 # 10;
  alpha := 1;
  huil := 1;
  human_robot := 2;
  v_huil := 5 # 2;
  division := 6;
  wedge := true;
  extra_robot := true
|}.

(** A HuIL controller that overwrites the command of the designated robot. *)
Definition sample_huil (u : vec) (h hr : Z) (i T : nat) (v : Q) (d : Z) : vec :=
  match py_index (length u) (2 * hr - 2)%Z, py_index (length u) (2 * hr - 1)%Z with
  | Some kx, Some ky => <[ky := 0]> (<[kx := v]> u)
  | _, _ => u
  end.

(** A safety controller that stops every robot: the zero command. *)
Definition halt_controller (k : cbf_call) : option vec :=
  Some (zeros (length (a_p (call_args k)))).

(** A safety controller that lets the nominal command through. *)
Definition pass_controller (k : cbf_call) : option vec :=
  Some (a_u_n (call_args k)).

(** An agent that sweeps to the right in the first half of the run and to
    the left in the second. *)
Definition sample_agent (i T : nat) (v : Q) (d : Z) : vec :=
  if (2 * i <? T)%nat then [v; 0] else [- v; 0].

(** Rows of the frames' widths for a graph of [ne] edges and [n] robots. *)
Definition sample_names (ne n : nat) : log_names := {|
  self_cbf_cm := zeros (S ne);
  self_cbf_oa := zeros (S ne);
  self_controller := zeros (S (2 * n));
  self_nom_controller := zeros (S (2 * n));
  time := 0;
  uhuilx := 0;
  uhuily := 0
|}.

Definition half_draw (k : nat) : Q := 1 # 2.

(** The pre-calculations of [small_config], written out, and a state of the
    loop after its first columns were set. *)
Definition small_precalc : precalc := {|
  pc_graph := {| number_neighbours := [1; 1]%nat;
                 edges := [(1, 2)%Z];
                 L_G := [ [1; -1]; [0; 1] ] |};
  pc_p_d := [0; 2; 0; -2];
  A_arena := [ [-1; 0; 0; 0]; [1; 0; 0; 0]; [0; -1; 0; 0]; [0; 1; 0; 0];
               [0; 0; -1; 0]; [0; 0; 1; 0]; [0; 0; 0; -1]; [0; 0; 0; 1] ];
  A_wedge := [ [-25 # 50; -1; 0; 0]; [-25 # 50; 1; 0; 0];
               [0; 0; -25 # 50; -1]; [0; 0; -25 # 50; 1] ];
  b_arena := zeros 8;
  b_wedge := zeros 4;
  A_extra := zeros2 2 4;
  b_extra := zeros 2
|}.

Definition small_state : sim_state := {|
  p := [ [1; 0; 3; 0]; zeros 4; zeros 4; zeros 4 ];
  huil_p := [ [-5; 20]; zeros 2; zeros 2; zeros 2 ];
  df_cbf_cm := [];
  df_cbf_oa := [];
  df_controller := [];
  df_nom_controller := [];
  df_huil_controller := []
|}.

(** ** Shapes: what makes a run go through *)

(** A safety controller that returns, for every call, a command of the
    shape of the state it was given. *)
Definition controller_total (cbfController : cbf_call -> option vec) : Prop :=
  forall k, exists u,
    cbfController k = Some u /\ length u = length (a_p (call_args k)).

(** An agent law that returns planar velocities. *)
Definition agent_planar (extraRobotDynamics : nat -> nat -> Q -> Z -> vec) : Prop :=
  forall i T v d, length (extraRobotDynamics i T v d) = dim.

(** Logging names bound to rows of the widths of the frames. *)
Definition names_fit (c : config) (pc : precalc) (nm : log_names) : Prop :=
  length (self_cbf_cm nm) = S (length (edges (pc_graph pc))) /\
  length (self_cbf_oa nm) = S (length (edges (pc_graph pc))) /\
  length (self_controller nm) = S (2 * number_robots c) /\
  length (self_nom_controller nm) = S (2 * number_robots c).

(** The state at the head of pass [i]: histories of [max_time_size] columns
    of the right heights, tables of [i] rows. *)
Definition shaped (c : config) (i : nat) (st : sim_state) : Prop :=
  length (p st) = max_time_size c /\
  Forall (fun col => length col = (number_robots c * dim)%nat) (p st) /\
  length (huil_p st) = max_time_size c /\
  Forall (fun col => length col = dim) (huil_p st) /\
  length (df_cbf_cm st) = i /\
  length (df_cbf_oa st) = i /\
  length (df_controller st) = i /\
  length (df_nom_controller st) = i /\
  length (df_huil_controller st) = i.

(** [next] is the forward-Euler successor of [prev] under the velocity [v]
    at the update frequency of [c]: [next = prev + v/freq] entry by entry,
    a velocity of one entry standing for every entry, as numpy stretches
    it. *)
Definition euler_related (c : config) (prev v next : vec) : Prop :=
  length next = length prev /\
  forall k, (k < length prev)%nat ->
    coord next k ==
    coord prev k
    + coord (stretch (length prev) v) k / inject_Z (Z.of_nat (freq c)).








Definition high_draw (k : nat) : Q := 9 # 10.

(** A HuIL controller that leaves the command as it is. *)
Definition plain_huil (u : vec) (h hr : Z) (i T : nat) (v : Q) (d : Z) : vec := u.

(** Three robots at an update frequency of 2 over two seconds, with the
    extra robot: as many columns as [small_config] has. *)
Definition slow_config : config := {|
  winx := 40;
  winy := 30;
  freq := 2;
  max_T := 2;
  formation_positions := [ (0, 2); (0, -2); (3, 0) ];
  neighbours := complete_neighbours 3;
  cm := 1;
  oa := 1;
  d_cm := 3;
  d_oa := 11 # 10;
  alpha := 1;
  huil := 0;
  human_robot := 1;
  v_huil := 5 # 2;
  division := 6;
  wedge := true;
  extra_robot := true
|}.

(** The velocity of the extra robot that a history shows for pass [i]: the
    displacement from column [i] to column [i+1] times the update
    frequency. *)
Definition observed_velocity (c : config) (hist : list vec) (i k : nat) : Q :=
  (coord (nth (S i) hist []) k - coord (nth i hist []) k)
  * inject_Z (Z.of_nat (freq c)).

(** The Laplacian the specification describes, "diagonal = degree,
    off-diagonal -1 for edges": row [i] has the number of listed neighbours
    at [i] and -1 at every listed neighbour. *)
Definition laplacian_row (n i : nat) (nb : list Z) : vec :=
  fold_left (fun row j => <[Z.to_nat (j - 1) := -1]> row) nb
            (<[i := inject_Z (Z.of_nat (length nb))]> (zeros n)).

Definition laplacian (nbs : list (list Z)) : matrix :=
  imap (fun i nb => laplacian_row (length nbs) i nb) nbs.

(** Neighbour lists that name robots of the graph, none twice, never the
    robot itself. *)
Definition wf_neighbours (nbs : list (list Z)) : Prop :=
  forall i nb, nbs !! i = Some nb ->
    NoDup nb /\
    forall j, j ∈ nb ->
      (1 <= j <= Z.of_nat (length nbs))%Z /\ j <> (Z.of_nat i + 1)%Z.

(** The x-row ([axis = 0]) or y-row ([axis = 1]) that a row of [L] gives
    in [np.kron(L, np.eye(2))]. *)
Definition axis_row (axis : nat) (row : vec) : vec :=
  flat_map (fun x => match axis with O => [x; 0] | S _ => [0; x] end) row.

(** ** Proof helpers *)


(** ** Notions for the properties of the pre-calculations *)

(** An edge list that holds no pair twice, in either orientation. *)
Definition undirected_nodup (es : list edge) : Prop :=
  NoDup es /\ forall a b, (a, b) ∈ es -> (b, a) ∈ es -> a = b.

(** Some edge of [es] that starts at the robot of label [r] ends at a label
    whose column is [k] in a matrix of [n] columns. *)
Definition marks (n : nat) (es : list edge) (r : Z) (k : nat) : bool :=
  existsb (fun e => (fst e =? r)%Z && bool_decide (py_index n (snd e - 1) = Some k)) es.

(** Neighbour lists that list every edge from both of its ends. *)
Definition symmetric_neighbours (nbs : list (list Z)) : Prop :=
  forall i k nb nbk,
    nbs !! i = Some nb -> nbs !! k = Some nbk ->
    (Z.of_nat k + 1)%Z ∈ nb -> (Z.of_nat i + 1)%Z ∈ nbk.

(** The state of the graph loop at the head of the pass of robot [a]:
    what the passes of the robots [0 .. a-1] have left in the lists and in
    the matrix of a graph of [n] robots. *)
Definition graph_inv (n : nat) (nbs : list (list Z)) (a : nat) (g : graph) : Prop :=
  number_neighbours g = map length (take a nbs) /\
  undirected_nodup (edges g) /\
  Forall (fun e => exists i nb,
            (i < a)%nat /\ fst e = (Z.of_nat i + 1)%Z /\
            nbs !! i = Some nb /\ snd e ∈ nb /\
            is_Some (py_index n (snd e - 1)) /\
            forall k nbk, (k < i)%nat -> nbs !! k = Some nbk ->
                          snd e = (Z.of_nat k + 1)%Z -> fst e ∉ nbk)
         (edges g) /\
  (forall i nb j, (i < a)%nat -> nbs !! i = Some nb -> j ∈ nb ->
     ((Z.of_nat i + 1)%Z, j) ∈ edges g \/ (j, (Z.of_nat i + 1)%Z) ∈ edges g) /\
  length (L_G g) = n /\
  Forall (fun row => length row = n) (L_G g) /\
  (forall i k nb, (i < a)%nat -> (i < n)%nat -> (k < n)%nat ->
     nbs !! i = Some nb ->
     entry (L_G g) i k =
       if marks n (edges g) (Z.of_nat i + 1)%Z k then -1
       else if (k =? i)%nat then inject_Z (Z.of_nat (length nb)) else 0) /\
  (forall i, (a <= i)%nat -> (i < n)%nat -> L_G g !! i = Some (zeros n)).

(** ** Visualisation (main.py, lines 259-308)

    The artists of the animation are kept with what the program reads and
    writes of them: the centre and radius of a circle, the data of a line.
    Colours, line widths and the text position are left out.  The axes are
    the list of the indices of the shapes added to them, in order. *)

(** [r_robot = 0.5] *)
Definition r_robot : Q := 1 # 2.

Inductive shape :=
  | Circle (center : Q * Q) (radius : Q)
  | Line2D (xdata ydata : Q * Q).

(** The text above the plot: ['T=0.0 s'] as [init] writes it, or
    ['T=%.1d s' % time], which prints the whole seconds of [time]. *)
Inductive time_text :=
  | InitText
  | Seconds (s : nat).

(** [M[r, col]] on a history kept by columns. *)
Definition cell (M : list vec) (r : Z) (col : nat) : option Q :=
  column ← M !! col;
  k ← py_index (length column) r;
  column !! k.

(** [(p[2*i, col], p[2*i+1, col])] *)
Definition robot_point (M : list vec) (i : Z) (col : nat) : option (Q * Q) :=
  x ← cell M (2 * i)%Z col;
  y ← cell M (2 * i + 1)%Z col;
  Some (x, y).

(** [(huil_p[0, col], huil_p[1, col])] *)
Definition agent_point (H : list vec) (col : nat) : option (Q * Q) :=
  x ← cell H 0%Z col;
  y ← cell H 1%Z col;
  Some (x, y).

(** The data of the line of an edge: with [aux_i = e[0]-1] and
    [aux_j = e[1]-1], the pair [(p[2*aux_i, col], p[2*aux_j, col])] and the
    pair [(p[2*aux_i+1, col], p[2*aux_j+1, col])]. *)
Definition edge_data (M : list vec) (e : edge) (col : nat)
  : option ((Q * Q) * (Q * Q)) :=
  let aux_i := (fst e - 1)%Z in
  let aux_j := (snd e - 1)%Z in
  xi ← cell M (2 * aux_i)%Z col;
  xj ← cell M (2 * aux_j)%Z col;
  yi ← cell M (2 * aux_i + 1)%Z col;
  yj ← cell M (2 * aux_j + 1)%Z col;
  Some ((xi, xj), (yi, yj)).

Definition robot_circle (M : list vec) (col : nat) (i : nat) : option shape :=
  pt ← robot_point M (Z.of_nat i) col; Some (Circle pt r_robot).

Definition edge_line (M : list vec) (col : nat) (e : edge) : option shape :=
  d ← edge_data M e col; Some (Line2D (fst d) (snd d)).

Definition agent_circle (c : config) (H : list vec) (col : nat)
  : option (list shape) :=
  if extra_robot c then pt ← agent_point H col; Some [Circle pt r_robot]
  else Some [].

(** The shapes as lines 259-269 build them from column [col] of the
    histories: a circle per robot, a line per edge, and the circle of the
    extra robot when there is one. *)
Definition shapes_at (c : config) (es : list edge) (st : sim_state) (col : nat)
  : option (list shape) :=
  circles ← mapM (robot_circle (p st) col) (seq 0 (number_robots c));
  lines ← mapM (edge_line (p st) col) es;
  extra ← agent_circle c (huil_p st) col;
  Some (circles ++ lines ++ extra).

(** Lines 259-269 read column 0. *)
Definition make_shapes (c : config) (es : list edge) (st : sim_state)
  : option (list shape) :=
  shapes_at c es st 0.

(** [s.center = pt]; on a line the assignment adds an attribute that
    nothing reads. *)
Definition set_center (s : shape) (pt : Q * Q) : shape :=
  match s with
  | Circle _ r => Circle pt r
  | Line2D x y => Line2D x y
  end.

(** [s.set_xdata(x); s.set_ydata(y)]; a circle has no such methods. *)
Definition set_data (s : shape) (x y : Q * Q) : option shape :=
  match s with
  | Circle _ _ => None
  | Line2D _ _ => Some (Line2D x y)
  end.

(** The loop over the robots of [init] ([reg = true]: the shape is also
    added to the axes) and of [animate] ([reg = false]). *)
Fixpoint place_robots (M : list vec) (col : nat) (reg : bool) (todo : list nat)
    (sh : list shape) (ax : list nat) : option (list shape * list nat) :=
  match todo with
  | [] => Some (sh, ax)
  | i :: todo' =>
      pt ← robot_point M (Z.of_nat i) col;
      s ← sh !! i;
      place_robots M col reg todo' (<[i := set_center s pt]> sh)
        (if reg then ax ++ [i] else ax)
  end.

(** The loop over the edges, [i] counting them; the line of edge [i] is the
    shape [number_robots + i]. *)
Fixpoint place_edges (M : list vec) (col : nat) (reg : bool) (n : nat)
    (es : list edge) (i : nat) (sh : list shape) (ax : list nat)
  : option (list shape * list nat) :=
  match es with
  | [] => Some (sh, ax)
  | e :: es' =>
      s ← sh !! (n + i)%nat;
      d ← edge_data M e col;
      s' ← set_data s (fst d) (snd d);
      place_edges M col reg n es' (S i) (<[(n + i)%nat := s']> sh)
        (if reg then ax ++ [(n + i)%nat] else ax)
  end.

(** [shapes[-1]]: the index of the last shape. *)
Definition last_index (sh : list shape) : option nat :=
  match length sh with
  | O => None
  | S k => Some k
  end.

Definition place_extra (c : config) (H : list vec) (col : nat) (reg : bool)
    (sh : list shape) (ax : list nat) : option (list shape * list nat) :=
  if extra_robot c then
    pt ← agent_point H col;
    k ← last_index sh;
    s ← sh !! k;
    Some (<[k := set_center s pt]> sh, if reg then ax ++ [k] else ax)
  else Some (sh, ax).

(** [init()]: the shapes, the axes and the text it leaves. *)
Definition init (c : config) (es : list edge) (st : sim_state)
    (sh : list shape) (ax : list nat)
  : option (list shape * list nat * time_text) :=
  '(sh1, ax1) ← place_robots (p st) 0 true (seq 0 (number_robots c)) sh ax;
  '(sh2, ax2) ← place_edges (p st) 0 true (number_robots c) es 0 sh1 ax1;
  '(sh3, ax3) ← place_extra c (huil_p st) 0 true sh2 ax2;
  Some (sh3, ax3, InitText).

(** [animate(frame)]: the shapes and the text it leaves; [frame/freq]
    raises for [freq = 0]. *)
Definition animate (c : config) (es : list edge) (st : sim_state)
    (frame : nat) (sh : list shape) : option (list shape * time_text) :=
  '(sh1, _) ← place_robots (p st) frame false (seq 0 (number_robots c)) sh [];
  '(sh2, _) ← place_edges (p st) frame false (number_robots c) es 0 sh1 [];
  '(sh3, _) ← place_extra c (huil_p st) frame false sh2 [];
  if (freq c =? 0)%nat then None
  else Some (sh3, Seconds (frame / freq c)).

(** A list of shapes of the kinds and in the order lines 259-269 give
    them, wherever the shapes are. *)
Definition layout (c : config) (es : list edge) (sh : list shape) : Prop :=
  exists circles lines extra,
    sh = circles ++ lines ++ extra /\
    length circles = number_robots c /\
    Forall (fun s => exists pt, s = Circle pt r_robot) circles /\
    length lines = length es /\
    Forall (fun s => exists x y, s = Line2D x y) lines /\
    (if extra_robot c then exists pt, extra = [Circle pt r_robot]
     else extra = []).

(** * Properties *)

(** ** The graph pre-calculations *)

(** C8. The Laplacian built for the default (complete) graph is not the
    symmetric matrix the specification describes: the entry of the pair
    (robot 1, robot 2) is -1 and the entry of the pair (robot 2, robot 1)
    is 0, because the assignment of line 107 sits under the test that keeps
    an edge from being listed twice; the row of robot 2 sums to 1. *)
Theorem L_G_default_upper_triangular :
  exists g, build_graph default_config = Some g /\
    entry (L_G g) 0 1 = -1 /\
    entry (L_G g) 1 0 = 0 /\
    entry (L_G g) 1 1 = 20 /\
    vsum (nth 1 (L_G g) []) == 1.
Proof.
  destruct (build_graph default_config) as [g|] eqn:E.
  - exists g. split; [reflexivity|].
    vm_compute in E. injection E as <-.
    repeat split.
  - vm_compute in E. discriminate E.
Qed.

(** The same on the smallest graph: two robots, each the other's neighbour. *)
Example L_G_two_robots :
  L_G <$> build_graph small_config = Some [ [1; -1]; [0; 1] ].
Proof. reflexivity. Qed.

(** C6. On the Laplacian the program constructs, the command the formation
    controller computes, -(L_G (x) I2)(p - p_d), is not the neighbour sum of
    the specification: with robot 1 displaced by one unit along x from its
    place in the formation, robot 2 is commanded 0 along x where the
    neighbour sum gives 1. *)
Theorem formation_command_differs_from_neighbour_sum :
  let q := <[0%nat := 1]> (p_d default_config) in
  exists g, build_graph default_config = Some g /\
    coord (formationController (L_G g) q (p_d default_config)) 2 == 0 /\
    coord (consensus_law (neighbours default_config) q (p_d default_config)) 2 == 1.
Proof.
  intros q.
  destruct (build_graph default_config) as [g|] eqn:E.
  - exists g. split; [reflexivity|].
    vm_compute in E. injection E as <-.
    split; vm_compute; reflexivity.
  - vm_compute in E. discriminate E.
Qed.

(** ** Inversion of one pass of the loop *)

Lemma df_append_inv n df row df' :
  df_append n df row = Some df' -> length row = n /\ df' = df ++ [row].
Proof.
  unfold df_append. intros H.
  apply bind_Some in H as (Hlen & _ & H).
  split; [exact Hlen | congruence].
Qed.

Lemma set_col_inv n M k col M' :
  set_col n M k col = Some M' ->
  (k < length M)%nat /\ length col = n /\ M' = <[k := col]> M.
Proof.
  unfold set_col. intros H.
  apply bind_Some in H as (Hk & _ & H).
  apply bind_Some in H as (Hlen & _ & H).
  repeat split; [exact Hk | exact Hlen | congruence].
Qed.

Lemma vscale_length (v : vec) x : length (vscale v x) = length v.
Proof. unfold vscale. apply length_map. Qed.

Lemma stretch_same n (a : vec) : length a = n -> stretch n a = a.
Proof.
  destruct a as [|x [|y a]]; intros H; try reflexivity.
  cbn in H. subst n. reflexivity.
Qed.

Lemma stretch_other n (a : vec) : length a <> 1%nat -> stretch n a = a.
Proof. destruct a as [|x [|y a]]; intros H; try reflexivity. now destruct H. Qed.

Lemma stretch_one n (a : vec) :
  length a = 1%nat -> stretch n a = replicate n (nth 0 a 0).
Proof. destruct a as [|x [|y a]]; intros H; try discriminate H. reflexivity. Qed.

(** A broadcast that keeps the length of its second array took a first
    array of that length or of one element. *)
Lemma broadcast_inv f (a b y : vec) :
  broadcast f a b = Some y -> length y = length b ->
  (length a = length b \/ length a = 1%nat) /\
  y = zip_with f (stretch (length b) a) b.
Proof.
  unfold broadcast. intros H Hy.
  apply bind_Some in H as (Hlen & _ & H). injection H as <-.
  destruct (decide (length a = 1%nat)) as [Ha|Ha].
  - split; [right; exact Ha|].
    destruct (decide (length b = 1%nat)) as [Hb|Hb].
    + f_equal. apply stretch_same. congruence.
    + rewrite (stretch_other _ b Hb). reflexivity.
  - rewrite (stretch_other _ a Ha) in Hlen, Hy |- *.
    rewrite length_zip_with in Hy.
    destruct (decide (length b = 1%nat)) as [Hb|Hb].
    + rewrite (stretch_one _ b Hb), length_replicate in Hy. lia.
    + rewrite (stretch_other _ b Hb) in Hlen |- *. split; [left; exact Hlen | reflexivity].
Qed.

Lemma euler_inv c v x y :
  euler c v x = Some y -> length y = length x ->
  freq c <> 0%nat /\
  (length v = length x \/ length v = 1%nat) /\
  y = vadd (stretch (length x) (vscale v (dt c))) x.
Proof.
  unfold euler. intros H Hy.
  apply bind_Some in H as (Hf & _ & H).
  apply broadcast_inv in H as [Hl ->]; [| exact Hy].
  rewrite vscale_length in Hl. repeat split; assumption.
Qed.

Lemma log_step_inv names c pc st st' :
  log_step names c pc st = Some st' ->
  p st' = p st /\ huil_p st' = huil_p st /\
  exists nm r1 r2 r3 r4,
    names = Some nm /\
    df_cbf_cm st' = df_cbf_cm st ++ [r1] /\
    df_cbf_oa st' = df_cbf_oa st ++ [r2] /\
    df_controller st' = df_controller st ++ [r3] /\
    df_nom_controller st' = df_nom_controller st ++ [r4] /\
    df_huil_controller st' =
      df_huil_controller st ++ [[time nm; uhuilx nm; uhuily nm]].
Proof.
  unfold log_step. intros H.
  apply bind_Some in H as (nm & Hnm & H).
  apply bind_Some in H as (r1 & _ & H).
  apply bind_Some in H as (d1 & Hd1 & H).
  apply bind_Some in H as (r2 & _ & H).
  apply bind_Some in H as (d2 & Hd2 & H).
  apply bind_Some in H as (r3 & _ & H).
  apply bind_Some in H as (d3 & Hd3 & H).
  apply bind_Some in H as (r4 & _ & H).
  apply bind_Some in H as (d4 & Hd4 & H).
  apply bind_Some in H as (d5 & Hd5 & H).
  injection H as <-. cbn.
  apply df_append_inv in Hd1 as [_ ->], Hd2 as [_ ->], Hd3 as [_ ->],
                         Hd4 as [_ ->], Hd5 as [_ ->].
  split; [reflexivity|]. split; [reflexivity|].
  exists nm, r1, r2, r3, r4. repeat split; assumption || reflexivity.
Qed.

(** What lines 180-200 did when they went through. *)
Lemma move_robots_inv hc cc c pc i st m :
  move_robots hc cc c pc i st = Some m ->
  exists pi pnext,
    p st !! i = Some pi /\
    m_u_nom m = formationController (L_G (pc_graph pc)) pi (pc_p_d pc) /\
    m_u_n m = apply_huil hc c i (m_u_nom m) /\
    dispatch c pc pi (m_u_n m) (huil_p st !! i) = Some (m_call m) /\
    cc (m_call m) = Some (m_u m) /\
    m_pdot m = m_u m /\
    euler c (m_u m) pi = Some pnext /\
    (S i < length (p st))%nat /\
    length pnext = (number_robots c * dim)%nat /\
    m_p m = <[S i := pnext]> (p st).
Proof.
  unfold move_robots. intros H.
  apply bind_Some in H as (pi & Hpi & H).
  apply bind_Some in H as (k & Hk & H).
  apply bind_Some in H as (u & Hu & H).
  apply bind_Some in H as (pnext & Hnext & H).
  apply bind_Some in H as (p' & Hp' & H).
  injection H as <-. cbn.
  apply set_col_inv in Hp' as (Hlt & Hlen' & ->).
  exists pi, pnext. unfold systemDynamics in *.
  repeat split; assumption.
Qed.

(** What lines 202-205 did when they went through. *)
Lemma move_agent_inv erd c i st a :
  move_agent erd c i st = Some a ->
  if extra_robot c then
    exists h hnext,
      let v := erd i (max_time_size c) (v_huil c) (division c) in
      huil_p st !! i = Some h /\
      snd a = Some v /\
      euler c v h = Some hnext /\
      (S i < length (huil_p st))%nat /\
      length hnext = dim /\
      fst a = <[S i := hnext]> (huil_p st)
  else a = (huil_p st, None).
Proof.
  unfold move_agent. intros H. destruct (extra_robot c).
  - apply bind_Some in H as (h & Hhi & H).
    apply bind_Some in H as (hnext & Hnext & H).
    apply bind_Some in H as (hp2 & Hset & H).
    injection H as <-. cbn.
    apply set_col_inv in Hset as (Hlt & Hlen' & ->).
    exists h, hnext. repeat split; assumption.
  - injection H as <-. reflexivity.
Qed.

(** A pass that went through is its three parts in a row. *)
Lemma step_inv hc cc erd names c pc i st st' tr :
  step hc cc erd names c pc i st = Some (st', tr) ->
  exists m a,
    move_robots hc cc c pc i st = Some m /\
    move_agent erd c i st = Some a /\
    log_step names c pc
      {| p := m_p m; huil_p := fst a;
         df_cbf_cm := df_cbf_cm st; df_cbf_oa := df_cbf_oa st;
         df_controller := df_controller st;
         df_nom_controller := df_nom_controller st;
         df_huil_controller := df_huil_controller st |} = Some st' /\
    tr = {| t_u_nom := m_u_nom m; t_u_n := m_u_n m; t_u := m_u m;
            t_pdot := m_pdot m; t_huil_pdot := snd a |}.
Proof.
  unfold step. intros H.
  apply bind_Some in H as (m & Hm & H).
  apply bind_Some in H as (a & Ha & H).
  apply bind_Some in H as (st1 & Hlog & H).
  injection H as <- <-. exists m, a. repeat split; assumption.
Qed.

(** What a successful pass did to the robots. *)
Lemma step_inv_robots hc cc erd names c pc i st st' tr :
  step hc cc erd names c pc i st = Some (st', tr) ->
  exists pi k pnext,
    p st !! i = Some pi /\
    t_u_nom tr = formationController (L_G (pc_graph pc)) pi (pc_p_d pc) /\
    t_u_n tr = apply_huil hc c i (t_u_nom tr) /\
    dispatch c pc pi (t_u_n tr) (huil_p st !! i) = Some k /\
    cc k = Some (t_u tr) /\
    t_pdot tr = t_u tr /\
    euler c (t_u tr) pi = Some pnext /\
    (S i < length (p st))%nat /\
    length pnext = (number_robots c * dim)%nat /\
    p st' = <[S i := pnext]> (p st).
Proof.
  intros H. apply step_inv in H as (m & a & Hm & _ & Hlog & ->).
  apply move_robots_inv in Hm
    as (pi & pnext & Hpi & H1 & H2 & H3 & H4 & H5 & H6 & H7 & H8 & H9).
  apply log_step_inv in Hlog as (Hp & _). cbn in Hp.
  exists pi, (m_call m), pnext. cbn.
  repeat split; try assumption. congruence.
Qed.

(** What a successful pass did to the extra robot. *)
Lemma step_inv_agent hc cc erd names c pc i st st' tr :
  step hc cc erd names c pc i st = Some (st', tr) ->
  if extra_robot c then
    exists h hnext,
      let v := erd i (max_time_size c) (v_huil c) (division c) in
      huil_p st !! i = Some h /\
      t_huil_pdot tr = Some v /\
      euler c v h = Some hnext /\
      (S i < length (huil_p st))%nat /\
      length hnext = dim /\
      huil_p st' = <[S i := hnext]> (huil_p st)
  else t_huil_pdot tr = None /\ huil_p st' = huil_p st.
Proof.
  intros H. apply step_inv in H as (m & a & _ & Ha & Hlog & ->).
  apply move_agent_inv in Ha.
  apply log_step_inv in Hlog as (_ & Hhp & _). cbn in Hhp.
  destruct (extra_robot c).
  - destruct Ha as (h & hnext & H1 & H2 & H3 & H4 & H5 & H6).
    exists h, hnext. cbn. repeat split; try assumption. congruence.
  - subst a. cbn in *. split; [reflexivity | assumption].
Qed.

(** What a successful pass did to the five tables. *)
Lemma step_inv_tables hc cc erd names c pc i st st' tr :
  step hc cc erd names c pc i st = Some (st', tr) ->
  exists nm r1 r2 r3 r4,
    names = Some nm /\
    df_cbf_cm st' = df_cbf_cm st ++ [r1] /\
    df_cbf_oa st' = df_cbf_oa st ++ [r2] /\
    df_controller st' = df_controller st ++ [r3] /\
    df_nom_controller st' = df_nom_controller st ++ [r4] /\
    df_huil_controller st' =
      df_huil_controller st ++ [[time nm; uhuilx nm; uhuily nm]].
Proof.
  intros H. apply step_inv in H as (m & a & _ & _ & Hlog & _).
  apply log_step_inv in Hlog as (_ & _ & Hlog). exact Hlog.
Qed.

(** ** The dispatch of the safety controller *)

(** C2 (as amended). Every call of a safety controller is handed the arena
    rows; the wedge rows are handed over in addition to them exactly when
    the wedge is selected and no extra robot is configured. *)
Theorem arena_rows_always_wedge_rows_added c pc pi u_n hp k :
  dispatch c pc pi u_n hp = Some k ->
  arena_rows k = Some (A_arena pc, b_arena pc) /\
  wedge_rows k =
    (if negb (extra_robot c) && wedge c then Some (A_wedge pc, b_wedge pc)
     else None).
Proof.
  unfold dispatch. intros H.
  destruct (extra_robot c).
  - apply bind_Some in H as (h & _ & H). injection H as <-.
    split; reflexivity.
  - destruct (wedge c); injection H as <-; split; reflexivity.
Qed.

Lemma arena_rows_always_wedge_rows_added_witness :
  exists k,
    dispatch wedge_config small_precalc [1; 0; 3; 0] [2; 0; -2; 0] None
      = Some k /\
    arena_rows k = Some (A_arena small_precalc, b_arena small_precalc) /\
    wedge_rows k = Some (A_wedge small_precalc, b_wedge small_precalc).
Proof.
  destruct (dispatch wedge_config small_precalc [1; 0; 3; 0] [2; 0; -2; 0]
              None) as [k|] eqn:E;
    [| vm_compute in E; discriminate E].
  exists k. split; [reflexivity|].
  exact (arena_rows_always_wedge_rows_added _ _ _ _ _ _ E).
Defined.

(** C2 as stated fails: with the wedge selected (and no extra robot) the
    call of the safety controller carries the four arena rows of every
    robot next to the wedge rows; with the wedge selected and the extra
    robot configured it carries the arena rows and no wedge rows. *)
Lemma wedge_call_carries_arena_rows :
  (exists k,
     wedge wedge_config = true /\
     dispatch wedge_config small_precalc [1; 0; 3; 0] [2; 0; -2; 0] None
       = Some k /\
     wedge_rows k =
       Some ([ [-25 # 50; -1; 0; 0]; [-25 # 50; 1; 0; 0];
               [0; 0; -25 # 50; -1]; [0; 0; -25 # 50; 1] ], zeros 4) /\
     arena_rows k =
       Some ([ [-1; 0; 0; 0]; [1; 0; 0; 0]; [0; -1; 0; 0]; [0; 1; 0; 0];
               [0; 0; -1; 0]; [0; 0; 1; 0]; [0; 0; 0; -1]; [0; 0; 0; 1] ],
             zeros 8)) /\
  (exists k,
     wedge wedge_extra_config = true /\
     dispatch wedge_extra_config small_precalc [1; 0; 3; 0] [2; 0; -2; 0]
       (Some [-5; 20]) = Some k /\
     wedge_rows k = None /\
     arena_rows k =
       Some ([ [-1; 0; 0; 0]; [1; 0; 0; 0]; [0; -1; 0; 0]; [0; 1; 0; 0];
               [0; 0; -1; 0]; [0; 0; 1; 0]; [0; 0; 0; -1]; [0; 0; 0; 1] ],
             zeros 8)).
Proof.
  split; eexists; (split; [reflexivity|]); (split; [reflexivity|]);
    split; reflexivity.
Qed.

Example small_precalc_computed :
  precalculate small_config = Some small_precalc /\
  precalculate wedge_config = Some small_precalc /\
  precalculate wedge_extra_config = Some small_precalc.
Proof. repeat split; vm_compute; reflexivity. Qed.


(** ** Initial positions *)

Lemma coord_lookup (v : vec) k x : v !! k = Some x -> coord v k = x.
Proof. intros H. unfold coord. apply nth_lookup_Some with (d := 0) in H. exact H. Qed.

Lemma map_lookup {A B} (f : A -> B) (l : list A) k :
  map f l !! k = f <$> (l !! k).
Proof. exact (list_lookup_fmap f l k). Qed.

Lemma py_index_in_range n k :
  (0 <= k < Z.of_nat n)%Z -> py_index n k = Some (Z.to_nat k).
Proof.
  intros [H1 H2]. unfold py_index.
  apply Z.leb_le in H1. apply Z.ltb_lt in H2. rewrite H1, H2. reflexivity.
Qed.

Lemma initial_positions_length rand c :
  length (initial_positions rand c) = (number_robots c * dim)%nat.
Proof. unfold initial_positions. rewrite length_map, length_seq. reflexivity. Qed.


Lemma initial_state_eq rand c :
  (0 < max_time_size c)%nat ->
  (1 <= human_robot c <= Z.of_nat (number_robots c))%Z ->
  initial_state rand c =
    Some {| p := <[0%nat := initial_positions rand c]>
                   (replicate (max_time_size c) (zeros (number_robots c * dim)));
            huil_p := <[0%nat := [-5; 20]]>
                        (replicate (max_time_size c) (zeros dim));
            df_cbf_cm := []; df_cbf_oa := []; df_controller := [];
            df_nom_controller := []; df_huil_controller := [] |}.
Proof.
  intros HT Hh. unfold initial_state.
  rewrite !py_index_in_range by lia. cbn [mbind option_bind].
  unfold set_col.
  rewrite !length_replicate, initial_positions_length.
  rewrite !option_guard_True by (reflexivity || exact HT).
  reflexivity.
Qed.



(** ** The safety QP *)

Lemma Qsquare_nonneg (x : Q) : 0 <= x * x.
Proof. nra. Qed.

Lemma vsum_cons x (l : vec) : vsum (x :: l) = x + vsum l.
Proof. reflexivity. Qed.

Lemma cost_cons y u_nom x u :
  cost (y :: u_nom) (x :: u) = (x - y) * (x - y) + cost u_nom u.
Proof. reflexivity. Qed.

Lemma vsum_squares_nonneg (d : vec) : 0 <= vsum (map (fun x => x * x) d).
Proof.
  induction d as [|x d IH]; [cbn; lra|].
  cbn [map]. rewrite vsum_cons.
  pose proof (Qsquare_nonneg x) as Hx. lra.
Qed.

Lemma cost_nonneg u_nom u : 0 <= cost u_nom u.
Proof. apply vsum_squares_nonneg. Qed.

Lemma cost_self u : cost u u == 0.
Proof.
  induction u as [|x u IH]; [reflexivity|].
  rewrite cost_cons, IH. ring.
Qed.

Lemma cost_zero_eq u_nom u :
  length u = length u_nom -> cost u_nom u <= 0 -> vec_eq u u_nom.
Proof.
  revert u_nom. induction u as [|x u IH]; intros [|y u_nom] Hlen Hc;
    try discriminate Hlen.
  - constructor.
  - rewrite cost_cons in Hc.
    pose proof (cost_nonneg u_nom u) as Hrest.
    pose proof (Qsquare_nonneg (x - y)) as Hsq.
    constructor.
    + assert (Hz : (x - y) * (x - y) == 0) by lra.
      apply Qmult_integral in Hz. destruct Hz; lra.
    + apply IH; [cbn in Hlen; congruence | lra].
Qed.

Lemma strictly_feasible_feasible A b u : strictly_feasible A b u -> feasible A b u.
Proof.
  unfold strictly_feasible, feasible. intros H.
  eapply Forall2_impl; [exact H|]. cbn. intros row bi Hlt. lra.
Qed.

(** C7. When the nominal command satisfies every row of the stacked system
    with a positive margin, the solve has a result, the nominal command
    itself, and every result of the solve equals the nominal command. *)
Theorem qp_identity_on_interior A b u_nom :
  strictly_feasible A b u_nom ->
  qp_solution A b u_nom u_nom /\
  forall u, qp_solution A b u_nom u -> vec_eq u u_nom.
Proof.
  intros Hs. apply strictly_feasible_feasible in Hs. split.
  - split; [reflexivity|]. split; [exact Hs|].
    intros v _ _. rewrite cost_self. apply cost_nonneg.
  - intros u (Hlen & _ & Hmin).
    apply cost_zero_eq; [exact Hlen|].
    rewrite <- (cost_self u_nom). apply Hmin; [reflexivity | exact Hs].
Qed.

Lemma qp_identity_on_interior_witness :
  qp_solution [ [1; 0]; [0; 1] ] [5; 5] [1; 2] [1; 2] /\
  forall u, qp_solution [ [1; 0]; [0; 1] ] [5; 5] [1; 2] u -> vec_eq u [1; 2].
Proof.
  apply (qp_identity_on_interior [ [1; 0]; [0; 1] ] [5; 5] [1; 2]).
  repeat constructor.
Defined.

(** ** The simulation loop *)

Lemma vadd_length (a b : vec) :
  length a = length b -> length (vadd a b) = length b.
Proof. intros H. unfold vadd. rewrite length_zip_with. lia. Qed.

Lemma euler_step_length c (v x : vec) :
  length v = length x -> length (vadd (vscale v (dt c)) x) = length x.
Proof. intros H. apply vadd_length. rewrite vscale_length. exact H. Qed.

Lemma euler_Some c v x :
  freq c <> 0%nat -> length v = length x ->
  euler c v x = Some (vadd (vscale v (dt c)) x).
Proof.
  intros Hf H. unfold euler, broadcast.
  rewrite option_guard_True by exact Hf. cbn [mbind option_bind].
  rewrite vscale_length.
  rewrite (stretch_same (length x) (vscale v (dt c)))
    by (rewrite vscale_length; exact H).
  rewrite (stretch_same (length v) x) by congruence.
  rewrite option_guard_True by (rewrite vscale_length; exact H).
  reflexivity.
Qed.

Lemma freq_of_columns c n : (n < max_time_size c)%nat -> freq c <> 0%nat.
Proof. unfold max_time_size. intros H E. rewrite E in H. lia. Qed.

Lemma set_col_Some n (M : list vec) k col :
  (k < length M)%nat -> length col = n -> set_col n M k col = Some (<[k := col]> M).
Proof.
  intros Hk Hn. unfold set_col.
  rewrite !option_guard_True by assumption. reflexivity.
Qed.

Lemma df_append_Some n (df : table) row :
  length row = n -> df_append n df row = Some (df ++ [row]).
Proof. intros H. unfold df_append. rewrite option_guard_True by exact H. reflexivity. Qed.

Lemma set_head_Some (row : list Q) t n :
  length row = S n ->
  set_head row t = Some (<[0%nat := t]> row) /\ length (<[0%nat := t]> row) = S n.
Proof.
  intros H. destruct row as [|x row]; [discriminate H|].
  split; [reflexivity | exact H].
Qed.

Lemma dispatch_Some c pc pi u_n hp :
  (extra_robot c = true -> is_Some hp) ->
  exists k, dispatch c pc pi u_n hp = Some k /\ a_p (call_args k) = pi.
Proof.
  intros Hhp. unfold dispatch. destruct (extra_robot c).
  - destruct (Hhp eq_refl) as [h ->]. eexists. split; reflexivity.
  - destruct (wedge c); eexists; split; reflexivity.
Qed.

Lemma dispatch_args c pc pi u_n hp k :
  dispatch c pc pi u_n hp = Some k ->
  a_p (call_args k) = pi /\
  a_number_robots (call_args k) = number_robots c /\
  a_alpha (call_args k) = alpha c /\
  a_A_arena (call_args k) = A_arena pc /\
  a_x_max (call_args k) = x_max c /\
  a_x_min (call_args k) = - x_max c /\
  a_y_max (call_args k) = y_max c /\
  a_y_min (call_args k) = - y_max c.
Proof.
  unfold dispatch. intros H. destruct (extra_robot c).
  - apply bind_Some in H as (h & _ & H). injection H as <-.
    repeat split.
  - destruct (wedge c); injection H as <-; repeat split.
Qed.

(** The command a call hands to the safety controller. *)
Lemma dispatch_command c pc pi u_n hp k :
  dispatch c pc pi u_n hp = Some k -> a_u_n (call_args k) = u_n.
Proof.
  unfold dispatch. intros H. destruct (extra_robot c).
  - apply bind_Some in H as (h & _ & H). injection H as <-. reflexivity.
  - destruct (wedge c); injection H as <-; reflexivity.
Qed.

Lemma log_step_Some c pc nm st :
  names_fit c pc nm ->
  exists st', log_step (Some nm) c pc st = Some st'.
Proof.
  intros (H1 & H2 & H3 & H4). unfold log_step. cbn [mbind option_bind].
  destruct (set_head_Some _ (time nm) _ H1) as [-> L1].
  destruct (set_head_Some _ (time nm) _ H2) as [-> L2].
  destruct (set_head_Some _ (time nm) _ H3) as [-> L3].
  destruct (set_head_Some _ (time nm) _ H4) as [-> L4].
  cbn [mbind option_bind].
  rewrite (df_append_Some _ (df_cbf_cm st) _ L1). cbn [mbind option_bind].
  rewrite (df_append_Some _ (df_cbf_oa st) _ L2). cbn [mbind option_bind].
  rewrite (df_append_Some _ (df_controller st) _ L3). cbn [mbind option_bind].
  rewrite (df_append_Some _ (df_nom_controller st) _ L4). cbn [mbind option_bind].
  rewrite (df_append_Some 3 (df_huil_controller st)
             [time nm; uhuilx nm; uhuily nm] eq_refl).
  cbn [mbind option_bind]. eexists. reflexivity.
Qed.

(** A pass keeps the shape of the state and adds a row to every table. *)
Lemma step_shaped hc cc erd names c pc i st st' tr :
  shaped c i st ->
  step hc cc erd names c pc i st = Some (st', tr) ->
  shaped c (S i) st'.
Proof.
  intros (Lp & Fp & Lh & Fh & T1 & T2 & T3 & T4 & T5) H.
  pose proof (step_inv_robots _ _ _ _ _ _ _ _ _ _ H)
    as (pi & k & pnext & Hpi & _ & _ & _ & _ & _ & _ & _ & Hnext & Hp').
  pose proof (step_inv_tables _ _ _ _ _ _ _ _ _ _ H)
    as (nm & r1 & r2 & r3 & r4 & _ & E1 & E2 & E3 & E4 & E5).
  pose proof (step_inv_agent _ _ _ _ _ _ _ _ _ _ H) as Ha.
  unfold shaped.
  rewrite Hp', E1, E2, E3, E4, E5, !length_app, length_insert. cbn [length].
  split; [exact Lp|].
  split; [apply Forall_insert; assumption|].
  assert (Hagent : length (huil_p st') = max_time_size c /\
                   Forall (fun col => length col = dim) (huil_p st')).
  { destruct (extra_robot c).
    - destruct Ha as (h & hnext & _ & _ & _ & _ & Hl & ->).
      rewrite length_insert. split; [exact Lh|].
      apply Forall_insert; assumption.
    - destruct Ha as [_ ->]. split; assumption. }
  destruct Hagent as [Lh' Fh'].
  repeat split; (assumption || lia).
Qed.

(** Lines 180-200 go through when the safety controller returns a command
    of the shape of the state and a column is left to write. *)
Lemma move_robots_progress hc cc c pc i j st :
  controller_total cc -> shaped c j st -> (S i < max_time_size c)%nat ->
  exists m, move_robots hc cc c pc i st = Some m.
Proof.
  intros Hcc (Lp & Fp & Lh & Fh & _) Hi.
  destruct (lookup_lt_is_Some_2 (p st) i ltac:(lia)) as [pi Hpi].
  destruct (lookup_lt_is_Some_2 (huil_p st) i ltac:(lia)) as [h Hh].
  assert (Lpi : length pi = (number_robots c * dim)%nat)
    by (eapply (proj1 (Forall_lookup _ _) Fp); exact Hpi).
  pose proof (freq_of_columns c _ Hi) as Hf.
  unfold move_robots. rewrite Hpi. cbn [mbind option_bind].
  destruct (dispatch_Some c pc pi
              (apply_huil hc c i
                 (formationController (L_G (pc_graph pc)) pi (pc_p_d pc)))
              (huil_p st !! i)) as (k & -> & Hk).
  { intros _. rewrite Hh. eexists; reflexivity. }
  cbn [mbind option_bind].
  destruct (Hcc k) as (u & -> & Lu). rewrite Hk in Lu.
  cbn [mbind option_bind]. unfold systemDynamics.
  rewrite (euler_Some c u pi Hf Lu). cbn [mbind option_bind].
  rewrite set_col_Some
    by (try lia; rewrite euler_step_length by exact Lu; exact Lpi).
  cbn [mbind option_bind]. eexists. reflexivity.
Qed.

(** Lines 202-205 go through when the law of the agent returns planar
    velocities and a column is left to write. *)
Lemma move_agent_progress erd c i j st :
  agent_planar erd -> shaped c j st -> (S i < max_time_size c)%nat ->
  exists a, move_agent erd c i st = Some a.
Proof.
  intros Herd (Lp & Fp & Lh & Fh & _) Hi.
  destruct (lookup_lt_is_Some_2 (huil_p st) i ltac:(lia)) as [h Hh].
  assert (Lhi : length h = dim)
    by (eapply (proj1 (Forall_lookup _ _) Fh); exact Hh).
  pose proof (freq_of_columns c _ Hi) as Hf.
  unfold move_agent. destruct (extra_robot c); [| eexists; reflexivity].
  rewrite Hh. cbn [mbind option_bind].
  pose proof (Herd i (max_time_size c) (v_huil c) (division c)) as Lv.
  rewrite (euler_Some c _ h Hf) by congruence. cbn [mbind option_bind].
  rewrite set_col_Some
    by (try lia; rewrite euler_step_length by congruence; exact Lhi).
  eexists. reflexivity.
Qed.

(** A pass goes through when the controllers and the names have the right
    shapes and a column is left to write. *)
Lemma step_progress hc cc erd nm c pc i st :
  controller_total cc -> agent_planar erd -> names_fit c pc nm ->
  shaped c i st -> (S i < max_time_size c)%nat ->
  exists st' tr, step hc cc erd (Some nm) c pc i st = Some (st', tr).
Proof.
  intros Hcc Herd Hnm Hs Hi.
  destruct (move_robots_progress hc cc c pc i i st Hcc Hs Hi) as [m Hm].
  destruct (move_agent_progress erd c i i st Herd Hs Hi) as [a Ha].
  unfold step. rewrite Hm, Ha. cbn [mbind option_bind].
  match goal with
  | |- context [log_step _ _ _ ?s] =>
      destruct (log_step_Some c pc nm s Hnm) as [st' ->]
  end.
  cbn [mbind option_bind]. eexists. eexists. reflexivity.
Qed.

(** An invariant of the passes is an invariant of the loop. *)
Lemma loop_invariant (I : nat -> sim_state -> Prop) hc cc erd names c pc :
  (forall i st st' tr,
     I i st -> step hc cc erd names c pc i st = Some (st', tr) -> I (S i) st') ->
  forall n a st st',
    I a st -> loop hc cc erd names c pc (seq a n) st = Some st' ->
    I (a + n)%nat st'.
Proof.
  intros Hstep n. induction n as [|n IH]; intros a st st' Ha H.
  - cbn in H. injection H as <-. rewrite Nat.add_0_r. exact Ha.
  - cbn [seq loop] in H.
    apply bind_Some in H as ([st1 tr] & Hs & H). cbn [fst] in H.
    replace (a + S n)%nat with (S a + n)%nat by lia.
    eapply IH; [| exact H]. eapply Hstep; eassumption.
Qed.

(** The loop goes through as long as its passes do. *)
Lemma loop_progress hc cc erd nm c pc :
  controller_total cc -> agent_planar erd -> names_fit c pc nm ->
  forall n a st,
    shaped c a st -> (a + n < max_time_size c)%nat ->
    exists st', loop hc cc erd (Some nm) c pc (seq a n) st = Some st'.
Proof.
  intros Hcc Herd Hnm n. induction n as [|n IH]; intros a st Hs Hn.
  - eexists. reflexivity.
  - cbn [seq loop].
    destruct (step_progress hc cc erd nm c pc a st Hcc Herd Hnm Hs ltac:(lia))
      as (st1 & tr & E).
    rewrite E. cbn [mbind option_bind fst].
    apply IH; [| lia]. eapply step_shaped; eassumption.
Qed.

Lemma initial_state_shaped rand c st :
  initial_state rand c = Some st -> shaped c 0 st.
Proof.
  unfold initial_state. intros H.
  apply bind_Some in H as (k1 & _ & H).
  apply bind_Some in H as (k2 & _ & H).
  apply bind_Some in H as (p0 & Hp0 & H).
  apply bind_Some in H as (h0 & Hh0 & H).
  injection H as <-.
  apply set_col_inv in Hp0 as (_ & L0 & ->), Hh0 as (_ & L1 & ->).
  unfold shaped. cbn [p huil_p df_cbf_cm df_cbf_oa df_controller
                      df_nom_controller df_huil_controller length].
  rewrite !length_insert, !length_replicate.
  repeat split; try reflexivity.
  - apply Forall_insert; [| exact L0].
    apply Forall_replicate. apply length_replicate.
  - apply Forall_insert; [| exact L1].
    apply Forall_replicate. apply length_replicate.
Qed.

(** The run goes through, and leaves histories of [max_time_size] columns
    and tables of [max_time_size - 1] rows. *)
Lemma simulate_completes hc cc erd nm rand c pc :
  precalculate c = Some pc ->
  (0 < max_time_size c)%nat ->
  (1 <= human_robot c <= Z.of_nat (number_robots c))%Z ->
  controller_total cc -> agent_planar erd -> names_fit c pc nm ->
  exists st,
    simulate hc cc erd (Some nm) rand c = Some st /\
    shaped c (max_time_size c - 1) st.
Proof.
  intros Hpc HT Hh Hcc Herd Hnm. unfold simulate.
  rewrite Hpc. cbn [mbind option_bind].
  pose proof (initial_state_eq rand c HT Hh) as E0.
  rewrite E0. cbn [mbind option_bind].
  apply initial_state_shaped in E0.
  match type of E0 with shaped _ _ ?s0 => set (st0 := s0) in * end.
  destruct (loop_progress hc cc erd nm c pc Hcc Herd Hnm
              (max_time_size c - 1) 0 st0 E0 ltac:(lia)) as [st E].
  exists st. split; [exact E|].
  apply (loop_invariant (shaped c) hc cc erd (Some nm) c pc
           (fun i s s' tr => step_shaped hc cc erd (Some nm) c pc i s s' tr)
           _ _ _ _ E0 E).
Qed.

(** No pass gets past the logging block while its names are unbound. *)
Lemma step_needs_names hc cc erd c pc i st :
  step hc cc erd None c pc i st = None.
Proof.
  destruct (step hc cc erd None c pc i st) as [[st' tr]|] eqn:E; [| reflexivity].
  apply step_inv_tables in E as (nm & _ & _ & _ & _ & Hnm & _).
  discriminate Hnm.
Qed.

(** A state at the head of a pass has the shape of the histories and as
    many rows in its tables as passes went through. *)
Lemma head_of_pass_shaped hc cc erd names rand c pc i st :
  head_of_pass hc cc erd names rand c pc i st ->
  shaped c i st /\ (S i < max_time_size c)%nat /\ precalculate c = Some pc.
Proof.
  induction 1 as [st0 Hpc H0 HT | i st [st' tr] Hh IH Hs HT].
  - split; [eapply initial_state_shaped; exact H0|]. split; [lia | exact Hpc].
  - destruct IH as (Hsh & _ & Hpc).
    split; [eapply step_shaped; eassumption|]. split; [lia | exact Hpc].
Qed.
(** ** The run as main.py ships it *)

Lemma halt_controller_total : controller_total halt_controller.
Proof.
  intros k. eexists. split; [reflexivity|]. apply length_replicate.
Qed.

Lemma sample_agent_planar : agent_planar sample_agent.
Proof. intros i T v d. unfold sample_agent. destruct (2 * i <? T)%nat; reflexivity. Qed.

Lemma default_max_time_size : max_time_size default_config = 3000%nat.
Proof. reflexivity. Qed.

(** C1. The run of the default configuration does not populate its history
    tables.  The pre-calculations and the first columns go through and the
    first of the 2999 passes of [range(max_time_size-1)] is entered with
    every table empty; whatever the controllers, the agent and the draw
    are, that pass cannot get past the logging block, whose names main.py
    does not bind: the run raises there, no pass is ever completed, the
    only state in which a pass is entered is the initial one, and no table
    ever gets a row. *)
Theorem default_run_raises_at_logging hc cc erd rand :
  simulate hc cc erd None rand default_config = None /\
  loop_passes default_config = 2999%nat /\
  exists pc st0,
    precalculate default_config = Some pc /\
    initial_state rand default_config = Some st0 /\
    (df_cbf_cm st0 = [] /\ df_cbf_oa st0 = [] /\ df_controller st0 = [] /\
     df_nom_controller st0 = [] /\ df_huil_controller st0 = []) /\
    head_of_pass hc cc erd None rand default_config pc 0 st0 /\
    (forall i st,
       head_of_pass hc cc erd None rand default_config pc i st ->
       i = 0%nat /\ st = st0) /\
    (forall m a,
       move_robots hc cc default_config pc 0 st0 = Some m ->
       move_agent erd default_config 0 st0 = Some a ->
       log_step None default_config pc
         {| p := m_p m; huil_p := fst a;
            df_cbf_cm := []; df_cbf_oa := []; df_controller := [];
            df_nom_controller := []; df_huil_controller := [] |} = None) /\
    step hc cc erd None default_config pc 0 st0 = None.
Proof.
  destruct (precalculate default_config) as [pc|] eqn:Hpc;
    [| vm_compute in Hpc; discriminate Hpc].
  assert (HT : (0 < max_time_size default_config)%nat)
    by (rewrite default_max_time_size; lia).
  assert (Hh : (1 <= human_robot default_config
                  <= Z.of_nat (number_robots default_config))%Z)
    by (vm_compute; split; discriminate).
  pose proof (initial_state_eq rand default_config HT Hh) as H0.
  assert (Hpass : loop_passes default_config = 2999%nat).
  { unfold loop_passes. rewrite length_seq, default_max_time_size. reflexivity. }
  split; [| split; [exact Hpass|]].
  - unfold simulate. rewrite Hpc, H0. cbn [mbind option_bind].
    rewrite default_max_time_size.
    change (3000 - 1)%nat with (S 2998). cbn [seq loop].
    rewrite step_needs_names. reflexivity.
  - eexists pc, _. split; [reflexivity|]. split; [exact H0|].
    split; [repeat split|].
    split.
    { apply head_first; [exact Hpc | exact H0 |].
      rewrite default_max_time_size. lia. }
    split.
    { intros i st H. inversion H as [st1 _ H1 _ | j st1 r _ Hs _]; subst.
      - split; [reflexivity|]. rewrite H0 in H1. injection H1 as <-. reflexivity.
      - rewrite step_needs_names in Hs. discriminate Hs. }
    split; [intros m a _ _; reflexivity | apply step_needs_names].
Qed.

(** Were the names of the logging block bound to rows of the widths of the
    frames, the loop body would run 2999 times on the default
    configuration, not max_T * freq = 3000 times, and leave 2999 rows in
    every table. *)
Lemma default_run_is_one_pass_short :
  max_time_size default_config = 3000%nat /\
  loop_passes default_config <> max_time_size default_config /\
  exists st,
    simulate sample_huil halt_controller sample_agent
             (Some (sample_names 210 21)) half_draw default_config = Some st /\
    length (df_cbf_cm st) = 2999%nat /\
    length (df_cbf_oa st) = 2999%nat /\
    length (df_controller st) = 2999%nat /\
    length (df_nom_controller st) = 2999%nat /\
    length (df_huil_controller st) = 2999%nat.
Proof.
  split; [exact default_max_time_size|]. split.
  { unfold loop_passes. rewrite length_seq, default_max_time_size. lia. }
  destruct (precalculate default_config) as [pc|] eqn:Hpc;
    [| vm_compute in Hpc; discriminate Hpc].
  assert (Hnm : names_fit default_config pc (sample_names 210 21)).
  { vm_compute in Hpc. injection Hpc as <-. vm_compute. repeat split. }
  assert (HT : (0 < max_time_size default_config)%nat)
    by (rewrite default_max_time_size; lia).
  assert (Hh : (1 <= human_robot default_config
                  <= Z.of_nat (number_robots default_config))%Z)
    by (vm_compute; split; discriminate).
  pose proof (simulate_completes sample_huil halt_controller sample_agent
                (sample_names 210 21) half_draw default_config pc Hpc
                HT Hh halt_controller_total sample_agent_planar Hnm) as HS.
  destruct HS as (st & E & Hsh).
  destruct Hsh as (_ & _ & _ & _ & T1 & T2 & T3 & T4 & T5).
  exists st. split; [exact E|].
  rewrite T1, T2, T3, T4, T5, default_max_time_size.
  repeat split.
Qed.

(** ** The integrator *)

Lemma coord_default (v : vec) k : (length v <= k)%nat -> coord v k = 0.
Proof. intros H. unfold coord. apply nth_overflow. exact H. Qed.

Lemma coord_of_lookup (v : vec) k :
  (k < length v)%nat -> v !! k = Some (coord v k).
Proof.
  intros H. destruct (lookup_lt_is_Some_2 v k H) as [x Hx].
  rewrite (coord_lookup v k x Hx). exact Hx.
Qed.

Lemma coord_vadd (a b : vec) k :
  (k < length a)%nat -> (k < length b)%nat ->
  coord (vadd a b) k = coord a k + coord b k.
Proof.
  intros Ha Hb. apply coord_lookup. unfold vadd.
  rewrite lookup_zip_with, (coord_of_lookup a k Ha), (coord_of_lookup b k Hb).
  reflexivity.
Qed.

Lemma coord_vscale (v : vec) x k :
  (k < length v)%nat -> coord (vscale v x) k = coord v k * x.
Proof.
  intros H. apply coord_lookup. unfold vscale.
  rewrite map_lookup, (coord_of_lookup v k H). reflexivity.
Qed.

Lemma stretch_vscale n (v : vec) x :
  stretch n (vscale v x) = vscale (stretch n v) x.
Proof.
  destruct v as [|a [|b v]]; try reflexivity.
  cbn. unfold vscale. change (map ?f ?l) with (f <$> l).
  rewrite fmap_replicate. reflexivity.
Qed.

Lemma stretch_length n (v : vec) :
  length v = n \/ length v = 1%nat -> length (stretch n v) = n.
Proof.
  intros [H|H].
  - rewrite stretch_same by exact H. exact H.
  - rewrite stretch_one by exact H. apply length_replicate.
Qed.

(** An update that kept the shape of the column is a forward-Euler step,
    under a velocity of the length of the column or of one entry. *)
Lemma euler_step_related c (v x y : vec) :
  euler c v x = Some y -> length y = length x ->
  (length v = length x \/ length v = 1%nat) /\ euler_related c x v y.
Proof.
  intros H Hy. apply euler_inv in H as (Hf & Hl & ->); [| exact Hy].
  split; [exact Hl|]. split; [exact Hy|].
  intros k Hk. rewrite stretch_vscale.
  pose proof (stretch_length (length x) v Hl) as Ls.
  rewrite coord_vadd by (rewrite ?vscale_length; lia).
  rewrite coord_vscale by lia.
  unfold dt, Qdiv. ring.
Qed.



(** ** The arena rows *)

Lemma dot_cons x (a : vec) y (b : vec) : dot (x :: a) (y :: b) = x * y + dot a b.
Proof. reflexivity. Qed.

Lemma dot_zeros n (u : vec) : dot (zeros n) u == 0.
Proof.
  revert u. induction n as [|n IH]; intros [|y u]; try reflexivity.
  change (zeros (S n)) with (0 :: zeros n).
  rewrite dot_cons, IH. ring.
Qed.

Lemma coord_zeros n k : coord (zeros n) k = 0.
Proof.
  destruct (decide (k < n)%nat) as [H|H].
  - apply coord_lookup. apply lookup_replicate_2. exact H.
  - apply coord_default. unfold zeros. rewrite length_replicate. lia.
Qed.

(** Overwriting one entry of a row changes its product with [u] by the
    change of the entry times the coordinate of [u]. *)
Lemma dot_insert (row : vec) : forall k (u : vec) x,
  (k < length row)%nat -> (k < length u)%nat ->
  dot (<[k := x]> row) u == dot row u + (x - coord row k) * coord u k.
Proof.
  induction row as [|y row IH]; intros k u x Hk Hu; [cbn in Hk; lia|].
  destruct u as [|z u]; [cbn in Hu; lia|].
  destruct k as [|k].
  - change (<[0%nat := x]> (y :: row)) with (x :: row).
    rewrite !dot_cons. unfold coord. cbn [nth]. ring.
  - change (<[S k := x]> (y :: row)) with (y :: <[k := x]> row).
    rewrite !dot_cons. cbn [length] in Hk, Hu.
    rewrite (IH k u x) by lia. unfold coord. cbn [nth]. ring.
Qed.

Lemma coord_insert_ne (row : vec) k j x :
  k <> j -> coord (<[k := x]> row) j = coord row j.
Proof.
  intros Hne. destruct (decide (j < length row)%nat) as [H|H].
  - apply coord_lookup. rewrite list_lookup_insert_ne by exact Hne.
    apply coord_of_lookup. exact H.
  - rewrite !coord_default; [reflexivity | lia | rewrite length_insert; lia].
Qed.

(** A two-entry block written into a row of zeros multiplies out to the two
    coordinates it covers. *)
Lemma dot_unit_block n k (a b : Q) (u : vec) :
  (S k < n)%nat -> length u = n ->
  dot (set_row_slice (zeros n) k [a; b]) u == a * coord u k + b * coord u (S k).
Proof.
  intros Hk Hu. cbn [set_row_slice].
  assert (Lz : length (zeros n) = n) by apply length_replicate.
  rewrite dot_insert by (rewrite ?length_insert; lia).
  rewrite dot_insert by lia.
  rewrite coord_insert_ne by lia.
  rewrite !coord_zeros, dot_zeros. ring.
Qed.

Lemma set_block_lookup B : forall (M : matrix) r0 c0 r,
  set_block M r0 c0 B !! r =
    if decide (r0 <= r < r0 + length B)%nat
    then (fun row => set_row_slice row c0 (nth (r - r0) B [])) <$> (M !! r)
    else M !! r.
Proof.
  induction B as [|brow B IH]; intros M r0 c0 r.
  - cbn [set_block length]. destruct (decide _) as [H|H]; [lia | reflexivity].
  - cbn [set_block length]. rewrite IH.
    destruct (decide (S r0 <= r < S r0 + length B)%nat) as [H1|H1].
    + rewrite list_lookup_alter_ne by lia.
      destruct (decide (r0 <= r < r0 + S (length B))%nat) as [H2|H2]; [|lia].
      replace (r - r0)%nat with (S (r - S r0)) by lia. reflexivity.
    + destruct (decide (r0 <= r < r0 + S (length B))%nat) as [H2|H2].
      * assert (r = r0) as -> by lia.
        rewrite list_lookup_alter_eq, Nat.sub_diag. reflexivity.
      * apply list_lookup_alter_ne. lia.
Qed.

Lemma fill_blocks_fst aw todo : forall Aa Awd,
  fst (fill_blocks aw todo Aa Awd) =
  fold_left (fun M i => set_block M (4 * i) (2 * i) As) todo Aa.
Proof.
  induction todo as [|i todo IH]; intros Aa Awd; [reflexivity|].
  cbn [fill_blocks fold_left]. apply IH.
Qed.

Lemma arena_fold_lookup (M0 : matrix) n : forall j r, (r < 4)%nat ->
  fold_left (fun M i => set_block M (4 * i) (2 * i) As) (seq 0 n) M0 !! (4 * j + r)%nat =
    if decide (j < n)%nat
    then (fun row => set_row_slice row (2 * j) (nth r As [])) <$> (M0 !! (4 * j + r)%nat)
    else M0 !! (4 * j + r)%nat.
Proof.
  induction n as [|n IH]; intros j r Hr.
  - cbn [seq fold_left]. destruct (decide _) as [H|H]; [lia | reflexivity].
  - rewrite seq_S, fold_left_app. cbn [fold_left Nat.add].
    rewrite set_block_lookup. change (length As) with 4%nat.
    rewrite (IH j r Hr).
    destruct (decide (4 * n <= 4 * j + r < 4 * n + 4)%nat) as [H1|H1].
    + assert (j = n) as -> by lia.
      destruct (decide (n < n)%nat) as [H2|_]; [lia|].
      destruct (decide (n < S n)%nat) as [_|H3]; [|lia].
      replace (4 * n + r - 4 * n)%nat with r by lia. reflexivity.
    + destruct (decide (j < n)%nat) as [H2|H2];
        destruct (decide (j < S n)%nat) as [H3|H3]; try lia; reflexivity.
Qed.

(** Row [4 j + r] of the arena matrix is row [r] of [As] placed at the
    columns of robot [j]. *)
Lemma A_arena_row c pc j r :
  precalculate c = Some pc -> (j < number_robots c)%nat -> (r < 4)%nat ->
  A_arena pc !! (4 * j + r)%nat =
    Some (set_row_slice (zeros (number_robots c * 2)) (2 * j) (nth r As [])).
Proof.
  unfold precalculate. intros H Hj Hr.
  apply bind_Some in H as (g & _ & H).
  apply bind_Some in H as (aw & _ & H).
  destruct (fill_blocks aw (seq 0 (number_robots c))
              (zeros2 (number_robots c * 4) (number_robots c * 2))
              (zeros2 (number_robots c * 2) (number_robots c * 2)))
    as [Aa Awd] eqn:E.
  injection H as <-. cbn [A_arena].
  replace Aa with (fst (fill_blocks aw (seq 0 (number_robots c))
              (zeros2 (number_robots c * 4) (number_robots c * 2))
              (zeros2 (number_robots c * 2) (number_robots c * 2))))
    by (rewrite E; reflexivity).
  rewrite fill_blocks_fst, (arena_fold_lookup _ _ j r Hr).
  destruct (decide (j < number_robots c)%nat) as [_|H]; [|lia].
  unfold zeros2. rewrite lookup_replicate_2 by lia. reflexivity.
Qed.

Lemma flat_map_lookup_chunk {A B} (f : A -> list B) m (l : list A) :
  (forall x, length (f x) = m) ->
  forall j r, (r < m)%nat ->
    flat_map f l !! (m * j + r)%nat = l !! j ≫= fun x => f x !! r.
Proof.
  intros Hf. induction l as [|x l IH]; intros j r Hr.
  - reflexivity.
  - cbn [flat_map]. destruct j as [|j].
    + rewrite Nat.mul_0_r, Nat.add_0_l.
      rewrite lookup_app_l by (rewrite Hf; exact Hr). reflexivity.
    + rewrite lookup_app_r by (rewrite Hf; nia).
      rewrite Hf. replace (m * S j + r - m)%nat with (m * j + r)%nat by nia.
      apply IH. exact Hr.
Qed.















(** ** The formation law on a Laplacian as the specification describes it *)

Lemma kron_I2_axis_rows (L : matrix) :
  kron_I2 L = flat_map (fun row => [axis_row 0 row; axis_row 1 row]) L.
Proof. reflexivity. Qed.

Lemma axis_row_cons axis x (row : vec) :
  axis_row axis (x :: row) =
  match axis with O => [x; 0] | S _ => [0; x] end ++ axis_row axis row.
Proof. reflexivity. Qed.

Lemma coord_skip2 (e0 e1 : Q) (e : vec) m :
  coord (e0 :: e1 :: e) (S (S m)) = coord e m.
Proof. reflexivity. Qed.

Lemma dot_axis_row_zeros axis n : forall e : vec,
  dot (axis_row axis (zeros n)) e == 0.
Proof.
  induction n as [|n IH]; intros e; [reflexivity|].
  change (zeros (S n)) with (0 :: zeros n). rewrite axis_row_cons.
  destruct e as [|e0 [|e1 e]]; destruct axis; cbn [app];
    try reflexivity; rewrite ?dot_cons, ?IH; try ring.
Qed.

Lemma dot_axis_row_insert axis (row : vec) : forall k (e : vec) x,
  (axis < 2)%nat -> (k < length row)%nat -> length e = (2 * length row)%nat ->
  dot (axis_row axis (<[k := x]> row)) e ==
  dot (axis_row axis row) e + (x - coord row k) * coord e (2 * k + axis).
Proof.
  induction row as [|y row IH]; intros k e x Ha Hk He; [cbn in Hk; lia|].
  destruct e as [|e0 [|e1 e]]; try (cbn in He; lia).
  assert (He' : length e = (2 * length row)%nat) by (cbn in He; lia).
  destruct k as [|k].
  - change (<[0%nat := x]> (y :: row)) with (x :: row).
    rewrite !axis_row_cons.
    destruct axis as [|[|axis]]; [| |lia]; cbn [app];
      rewrite !dot_cons; unfold coord; cbn [nth Nat.mul Nat.add]; ring.
  - change (<[S k := x]> (y :: row)) with (y :: <[k := x]> row).
    rewrite !axis_row_cons.
    replace (2 * S k + axis)%nat with (S (S (2 * k + axis))) by lia.
    rewrite coord_skip2.
    assert (Hk' : (k < length row)%nat) by (cbn in Hk; lia).
    pose proof (IH k e x Ha Hk' He') as E.
    destruct axis as [|[|axis]]; [| |lia]; cbn [app];
      rewrite !dot_cons, E; unfold coord; cbn [nth]; ring.
Qed.

Lemma laplacian_fold_length (nb : list Z) : forall row : vec,
  length (fold_left (fun row j => <[Z.to_nat (j - 1) := -1]> row) nb row)
  = length row.
Proof.
  induction nb as [|j nb IH]; intros row; [reflexivity|].
  cbn [fold_left]. rewrite IH. apply length_insert.
Qed.

(** Writing -1 at the neighbours, one after the other, takes the
    coordinates of the neighbours off the product. *)
Lemma dot_laplacian_fold axis (e : vec) (nb : list Z) : forall row : vec,
  (axis < 2)%nat -> length e = (2 * length row)%nat ->
  NoDup nb ->
  (forall j, j ∈ nb ->
     (1 <= j <= Z.of_nat (length row))%Z /\ coord row (Z.to_nat (j - 1)) = 0) ->
  dot (axis_row axis
         (fold_left (fun row j => <[Z.to_nat (j - 1) := -1]> row) nb row)) e ==
  dot (axis_row axis row) e
  - vsum (map (fun j => coord e (2 * Z.to_nat (j - 1) + axis)) nb).
Proof.
  induction nb as [|j nb IH]; intros row Ha He Hnd Hnb.
  - cbn [fold_left map]. change (vsum []) with 0. ring.
  - apply NoDup_cons in Hnd as [Hj Hnd].
    destruct (Hnb j ltac:(left)) as [Hr Hz].
    cbn [fold_left map]. rewrite vsum_cons.
    rewrite IH; [| exact Ha | rewrite length_insert; exact He | exact Hnd |].
    + rewrite dot_axis_row_insert by (try lia; exact Ha || exact He).
      rewrite Hz. ring.
    + intros j' Hj'. rewrite length_insert.
      destruct (Hnb j' ltac:(right; exact Hj')) as [Hr' Hz'].
      split; [exact Hr'|].
      rewrite coord_insert_ne; [exact Hz'|].
      intros E. apply Hj. replace j with j' by lia. exact Hj'.
Qed.

Lemma coord_insert_eq (row : vec) k x :
  (k < length row)%nat -> coord (<[k := x]> row) k = x.
Proof.
  intros H. apply coord_lookup. apply list_lookup_insert_eq. exact H.
Qed.

Lemma dot_laplacian_row axis n i (nb : list Z) (e : vec) :
  (axis < 2)%nat -> (i < n)%nat -> length e = (2 * n)%nat ->
  NoDup nb ->
  (forall j, j ∈ nb -> (1 <= j <= Z.of_nat n)%Z /\ j <> (Z.of_nat i + 1)%Z) ->
  dot (axis_row axis (laplacian_row n i nb)) e ==
  inject_Z (Z.of_nat (length nb)) * coord e (2 * i + axis)
  - vsum (map (fun j => coord e (2 * Z.to_nat (j - 1) + axis)) nb).
Proof.
  intros Ha Hi He Hnd Hnb. unfold laplacian_row.
  assert (Lz : length (zeros n) = n) by apply length_replicate.
  rewrite dot_laplacian_fold;
    [| exact Ha | rewrite length_insert, Lz; exact He | exact Hnd |].
  - rewrite dot_axis_row_insert by (rewrite ?Lz; (exact Ha || lia)).
    rewrite dot_axis_row_zeros, coord_zeros. ring.
  - intros j Hj. rewrite length_insert, Lz.
    destruct (Hnb j Hj) as [Hr Hne]. split; [exact Hr|].
    rewrite coord_insert_ne by lia. apply coord_zeros.
Qed.

Lemma vsum_shift (f : Z -> Q) (x : Q) (nb : list Z) :
  vsum (map (fun j => f j - x) nb) ==
  vsum (map f nb) - inject_Z (Z.of_nat (length nb)) * x.
Proof.
  induction nb as [|j nb IH];
    [cbn [map length]; change (vsum []) with 0; change (inject_Z (Z.of_nat 0)) with 0; ring|].
  cbn [map length]. rewrite !vsum_cons, IH.
  rewrite Nat2Z.inj_succ, <- Z.add_1_r, inject_Z_plus. ring.
Qed.

Lemma vsum_ext (f g : Z -> Q) (nb : list Z) :
  (forall j, f j == g j) -> vsum (map f nb) == vsum (map g nb).
Proof.
  intros H. induction nb as [|j nb IH]; [reflexivity|].
  cbn [map]. rewrite !vsum_cons, IH, H. reflexivity.
Qed.

Lemma coord_vsub (a b : vec) k :
  length a = length b -> coord (vsub a b) k = coord a k - coord b k \/
                         ((length a <= k)%nat /\ coord (vsub a b) k = 0).
Proof.
  intros Hlen. destruct (decide (k < length a)%nat) as [H|H].
  - left. apply coord_lookup. unfold vsub.
    rewrite lookup_zip_with, (coord_of_lookup a k H),
      (coord_of_lookup b k ltac:(lia)). reflexivity.
  - right. split; [lia|]. apply coord_default. unfold vsub.
    rewrite length_zip_with. lia.
Qed.

Lemma coord_vsub_eq (a b : vec) k :
  length a = length b -> coord (vsub a b) k == coord a k - coord b k.
Proof.
  intros Hlen. destruct (coord_vsub a b k Hlen) as [->|[Hk ->]]; [reflexivity|].
  rewrite !coord_default by lia. ring.
Qed.

(** On the Laplacian of the specification the Laplacian form of the
    formation law and the neighbour sum agree: the model of
    [formationController] is the consensus law whenever it is given a
    Laplacian that has its -1 on both sides of every edge. *)
Lemma formation_controller_is_neighbour_sum nbs (q qd : vec) :
  wf_neighbours nbs ->
  length q = (2 * length nbs)%nat -> length qd = (2 * length nbs)%nat ->
  vec_eq (formationController (laplacian nbs) q qd) (consensus_law nbs q qd).
Proof.
  intros Hwf Lq Lqd.
  assert (Le : length (vsub q qd) = (2 * length nbs)%nat)
    by (unfold vsub; rewrite length_zip_with; lia).
  assert (Hchunk : forall (f : list Q -> list vec) rows,
            (forall x, length (f x) = 2%nat) ->
            length (flat_map f rows) = (2 * length rows)%nat).
  { intros f rows Hf. induction rows as [|r rows IH]; [reflexivity|].
    cbn [flat_map]. rewrite length_app, Hf, IH. cbn [length]. lia. }
  assert (Hchunk' : forall (f : nat -> vec) l,
            (forall x, length (f x) = 2%nat) ->
            length (flat_map f l) = (2 * length l)%nat).
  { intros f l Hf. induction l as [|r l IH]; [reflexivity|].
    cbn [flat_map]. rewrite length_app, Hf, IH. cbn [length]. lia. }
  unfold vec_eq. apply Forall2_same_length_lookup. split.
  - unfold formationController, vneg, mat_vec, consensus_law.
    rewrite !length_map, kron_I2_axis_rows.
    rewrite Hchunk by reflexivity. rewrite Hchunk' by reflexivity.
    unfold laplacian. rewrite length_imap, length_seq. reflexivity.
  - intros k x y Hx Hy.
    assert (Hk : (k < 2 * length nbs)%nat).
    { apply lookup_lt_Some in Hy. unfold consensus_law in Hy.
      rewrite Hchunk' in Hy by reflexivity. rewrite length_seq in Hy. exact Hy. }
    set (i := (k / 2)%nat). set (axis := (k mod 2)%nat).
    assert (Ek : k = (2 * i + axis)%nat) by (apply Nat.div_mod_eq).
    assert (Haxis : (axis < 2)%nat) by (apply Nat.mod_upper_bound; lia).
    assert (Hi : (i < length nbs)%nat) by lia.
    destruct (lookup_lt_is_Some_2 nbs i Hi) as [nb Hnb].
    destruct (Hwf i nb Hnb) as [Hnd Hin].
    rewrite Ek in Hx, Hy.
    unfold consensus_law in Hy.
    rewrite (flat_map_lookup_chunk _ 2) in Hy by (reflexivity || exact Haxis).
    rewrite lookup_seq_lt in Hy by exact Hi. cbn [mbind option_bind Nat.add] in Hy.
    unfold formationController, vneg, mat_vec in Hx.
    rewrite !map_lookup, kron_I2_axis_rows in Hx.
    rewrite (flat_map_lookup_chunk _ 2) in Hx by (reflexivity || exact Haxis).
    unfold laplacian in Hx. rewrite list_lookup_imap, Hnb in Hx.
    cbn [fmap option_fmap option_map mbind option_bind] in Hx.
    assert (Hrow : forall a, (a < 2)%nat ->
              - dot (axis_row a (laplacian_row (length nbs) i nb)) (vsub q qd)
              == neighbour_sum nbs q qd i a).
    { intros a Ha.
      rewrite (dot_laplacian_row a (length nbs) i nb (vsub q qd) Ha Hi Le Hnd Hin).
      unfold neighbour_sum.
      rewrite (nth_lookup_Some nbs i [] nb Hnb).
      rewrite (vsum_ext (neighbour_term q qd i a)
                 (fun j => coord (vsub q qd) (2 * Z.to_nat (j - 1) + a)
                           - coord (vsub q qd) (2 * i + a))).
      - rewrite vsum_shift. ring.
      - intros j. unfold neighbour_term.
        rewrite !coord_vsub_eq by lia. ring. }
    destruct axis as [|[|axis']]; [| |lia].
    + cbn in Hx, Hy. injection Hx as <-. injection Hy as <-.
      apply (Hrow 0%nat). lia.
    + cbn in Hx, Hy. injection Hx as <-. injection Hy as <-.
      apply (Hrow 1%nat). lia.
Qed.

(** The complete neighbour lists of three robots, on the Laplacian of the
    specification. *)
Example formation_controller_three_robots :
  map Qred (formationController (laplacian (complete_neighbours 3))
              [1; 0; 3; 0; 0; 5] [0; 1; 0; 0; 0; -1])
  = map Qred (consensus_law (complete_neighbours 3)
              [1; 0; 3; 0; 0; 5] [0; 1; 0; 0; 0; -1]).
Proof. reflexivity. Qed.

Lemma complete_neighbours_length n : length (complete_neighbours n) = n.
Proof. unfold complete_neighbours. rewrite length_map, length_seq. reflexivity. Qed.

(** The neighbour lists of the default graph are well formed. *)
Lemma complete_neighbours_wf n : wf_neighbours (complete_neighbours n).
Proof.
  intros i nb H. rewrite complete_neighbours_length.
  unfold complete_neighbours in H. rewrite map_lookup in H.
  destruct (seq 0 n !! i) as [i'|] eqn:E; [| discriminate H].
  apply lookup_seq in E as [-> Hi]. cbn [fmap option_fmap option_map] in H.
  injection H as <-.
  change (map (fun i0 : nat => (Z.of_nat i0 + 1)%Z)
              (filter (fun i0 : nat => i0 <> (0 + i)%nat) (seq 0 n)))
    with ((fun i0 : nat => (Z.of_nat i0 + 1)%Z) <$>
              (filter (fun i0 : nat => i0 <> (0 + i)%nat) (seq 0 n))).
  split.
  - apply NoDup_fmap_2.
    + intros x y Hxy. lia.
    + apply NoDup_filter. apply NoDup_seq.
  - intros j Hj.
    apply list_elem_of_fmap in Hj as (x & -> & Hx).
    apply list_elem_of_filter in Hx as [Hne Hx].
    apply elem_of_seq in Hx. lia.
Qed.

(** With the Laplacian of the specification in the place of the one the
    program constructs, the formation controller on the default graph is
    the neighbour sum. *)
Lemma default_formation_law_on_specified_laplacian (q : vec) :
  length q = (2 * number_robots default_config)%nat ->
  vec_eq (formationController (laplacian (neighbours default_config)) q
            (p_d default_config))
         (consensus_law (neighbours default_config) q (p_d default_config)).
Proof.
  intros Lq. apply formation_controller_is_neighbour_sum.
  - apply complete_neighbours_wf.
  - exact Lq.
  - reflexivity.
Qed.
(** ** The exogenous input *)

(** C5. In every pass, the command the safety controller is called with is
    decided by the extra-robot flag alone.  With the extra robot configured
    (obstacle mode) the call is the one of the extra-robot controller, its
    nominal command is the formation command itself, and lines 180-200 do
    not depend on the HuIL controller at all, whatever the HuIL flag is;
    without the extra robot the nominal command of the call is what the
    HuIL controller made of the formation command, and the call carries no
    extra-robot rows.  In both modes the column written is the Euler
    successor under what the safety controller returned for that call. *)
Theorem filter_input_overridden_only_without_extra_robot hc cc c pc i st m :
  move_robots hc cc c pc i st = Some m ->
  exists pt pnext,
    p st !! i = Some pt /\
    m_u_nom m = formationController (L_G (pc_graph pc)) pt (pc_p_d pc) /\
    dispatch c pc pt (m_u_n m) (huil_p st !! i) = Some (m_call m) /\
    a_p (call_args (m_call m)) = pt /\
    a_u_n (call_args (m_call m)) = m_u_n m /\
    cc (m_call m) = Some (m_u m) /\
    euler c (m_u m) pt = Some pnext /\
    m_p m = <[S i := pnext]> (p st) /\
    (extra_robot c = true ->
       a_u_n (call_args (m_call m)) = m_u_nom m /\
       is_Some (extra_rows (m_call m)) /\
       forall hc', move_robots hc' cc c pc i st = Some m) /\
    (extra_robot c = false ->
       a_u_n (call_args (m_call m))
         = hc (m_u_nom m) (huil c) (human_robot c) i (max_time_size c)
              (v_huil c) (division c) /\
       extra_rows (m_call m) = None).
Proof.
  intros Hm.
  pose proof (move_robots_inv _ _ _ _ _ _ _ Hm)
    as (pt & pnext & Hpt & Hnom & Hn & Hk & Hu & _ & He & _ & _ & Hp').
  exists pt, pnext.
  pose proof (dispatch_command _ _ _ _ _ _ Hk) as Hcmd.
  split; [exact Hpt|]. split; [exact Hnom|]. split; [exact Hk|].
  split; [exact (proj1 (dispatch_args _ _ _ _ _ _ Hk))|].
  split; [exact Hcmd|]. split; [exact Hu|]. split; [exact He|].
  split; [exact Hp'|]. split; intros Hx.
  - split; [| split].
    + rewrite Hcmd, Hn. unfold apply_huil. rewrite Hx. reflexivity.
    + unfold dispatch in Hk. rewrite Hx in Hk.
      apply bind_Some in Hk as (h & _ & Hk). injection Hk as <-.
      eexists. reflexivity.
    + intros hc'. rewrite <- Hm. unfold move_robots, apply_huil.
      rewrite Hx. reflexivity.
  - split.
    + rewrite Hcmd, Hn. unfold apply_huil. rewrite Hx. reflexivity.
    + unfold dispatch in Hk. rewrite Hx in Hk.
      destruct (wedge c); injection Hk as <-; reflexivity.
Qed.

Lemma filter_input_overridden_only_without_extra_robot_witness :
  (exists m,
     move_robots sample_huil pass_controller small_config small_precalc 0
       small_state = Some m /\
     a_u_n (call_args (m_call m)) = m_u_nom m /\
     forall hc', move_robots hc' pass_controller small_config small_precalc 0
                   small_state = Some m) /\
  (exists m,
     move_robots sample_huil pass_controller wedge_config small_precalc 0
       small_state = Some m /\
     a_u_n (call_args (m_call m))
       = sample_huil (m_u_nom m) (huil wedge_config) (human_robot wedge_config)
           0 (max_time_size wedge_config) (v_huil wedge_config)
           (division wedge_config) /\
     extra_rows (m_call m) = None).
Proof.
  split.
  - destruct (move_robots sample_huil pass_controller small_config
                small_precalc 0 small_state) as [m|] eqn:E;
      [| vm_compute in E; discriminate E].
    exists m. split; [reflexivity|].
    destruct (filter_input_overridden_only_without_extra_robot _ _ _ _ _ _ _ E)
      as (pt & pnext & _ & _ & _ & _ & _ & _ & _ & _ & Hx & _).
    destruct (Hx eq_refl) as (H1 & _ & H3). split; [exact H1 | exact H3].
  - destruct (move_robots sample_huil pass_controller wedge_config
                small_precalc 0 small_state) as [m|] eqn:E;
      [| vm_compute in E; discriminate E].
    exists m. split; [reflexivity|].
    destruct (filter_input_overridden_only_without_extra_robot _ _ _ _ _ _ _ E)
      as (pt & pnext & _ & _ & _ & _ & _ & _ & _ & _ & _ & Hx).
    exact (Hx eq_refl).
Defined.

(** Without the extra robot the override does reach the safety controller
    and the column it leads to: with a controller that lets the nominal
    command through, the HuIL controller that overwrites the command of
    the designated robot and the one that leaves it alone give different
    next columns; with the extra robot they give the same. *)
Example override_changes_the_column_without_extra_robot :
  (m_p <$> move_robots sample_huil pass_controller wedge_config small_precalc
             0 small_state)
  <> (m_p <$> move_robots plain_huil pass_controller wedge_config
                small_precalc 0 small_state) /\
  move_robots sample_huil pass_controller small_config small_precalc 0
    small_state
  = move_robots plain_huil pass_controller small_config small_precalc 0
      small_state.
Proof. split; [vm_compute; discriminate | reflexivity]. Qed.
(** ** The exogenous agent *)

Lemma nth_of_lookup (l : list vec) j x : l !! j = Some x -> nth j l [] = x.
Proof. intros H. rewrite nth_lookup, H. reflexivity. Qed.

(** The velocity the history of the agent shows for a pass is the value of
    the law of the agent at the loop index, the total step count, the speed
    and the divisor. *)
Lemma observed_velocity_is_law erd hc cc names rand c pc i st a :
  head_of_pass hc cc erd names rand c pc i st ->
  extra_robot c = true ->
  move_agent erd c i st = Some a ->
  snd a = Some (erd i (max_time_size c) (v_huil c) (division c)) /\
  forall k, (k < 2)%nat ->
    observed_velocity c (fst a) i k
    == coord (stretch 2 (erd i (max_time_size c) (v_huil c) (division c))) k.
Proof.
  intros Hh Hx Ha.
  apply head_of_pass_shaped in Hh as ((_ & _ & Lh & Fh & _) & Hi & _).
  apply move_agent_inv in Ha. rewrite Hx in Ha.
  destruct Ha as (h & hnext & Hhi & Hv & He & Hlt & Ln & Hp').
  split; [exact Hv|]. intros k Hk.
  assert (Lhi : length h = dim)
    by (eapply (proj1 (Forall_lookup _ _) Fh); exact Hhi).
  pose proof (freq_of_columns c _ Hi) as Hf.
  apply euler_step_related in He as [_ [_ Hr]]; [| congruence].
  unfold observed_velocity.
  rewrite (nth_of_lookup (fst a) (S i) hnext)
    by (rewrite Hp'; apply list_lookup_insert_eq; exact Hlt).
  rewrite (nth_of_lookup (fst a) i h)
    by (rewrite Hp', list_lookup_insert_ne by lia; exact Hhi).
  rewrite Lhi in Hr. unfold dim in Hr. rewrite (Hr k Hk).
  assert (Hq : ~ inject_Z (Z.of_nat (freq c)) == 0).
  { unfold Qeq. cbn. lia. }
  field. exact Hq.
Qed.

(** C9. In two runs that may differ in everything but the total step
    count, the speed and the divisor (in the robots and their positions,
    the controllers and the commands they return, the draw, the logging
    names, the update frequency), the velocity of the agent in pass i is
    the same: the value handed to the integrator is the same, and so is the
    velocity the two histories show, the displacement of the agent over
    the pass times the update frequency.  It is the value of the law of
    the agent at the four values. *)
Theorem agent_velocity_schedule_only
    erd hc1 hc2 cc1 cc2 names1 names2 rand1 rand2 c1 c2 pc1 pc2 i st1 st2 a1 a2 :
  head_of_pass hc1 cc1 erd names1 rand1 c1 pc1 i st1 ->
  head_of_pass hc2 cc2 erd names2 rand2 c2 pc2 i st2 ->
  extra_robot c1 = true ->
  extra_robot c2 = true ->
  max_time_size c1 = max_time_size c2 ->
  v_huil c1 = v_huil c2 ->
  division c1 = division c2 ->
  move_agent erd c1 i st1 = Some a1 ->
  move_agent erd c2 i st2 = Some a2 ->
  snd a1 = snd a2 /\
  snd a1 = Some (erd i (max_time_size c1) (v_huil c1) (division c1)) /\
  forall k, (k < 2)%nat ->
    observed_velocity c1 (fst a1) i k == observed_velocity c2 (fst a2) i k /\
    observed_velocity c1 (fst a1) i k
    == coord (stretch 2 (erd i (max_time_size c1) (v_huil c1) (division c1))) k.
Proof.
  intros H1 H2 X1 X2 HT Hv Hd A1 A2.
  destruct (observed_velocity_is_law _ _ _ _ _ _ _ _ _ _ H1 X1 A1) as [V1 O1].
  destruct (observed_velocity_is_law _ _ _ _ _ _ _ _ _ _ H2 X2 A2) as [V2 O2].
  rewrite <- HT, <- Hv, <- Hd in V2, O2.
  split; [congruence|]. split; [exact V1|].
  intros k Hk. split; [| exact (O1 k Hk)].
  rewrite (O1 k Hk), (O2 k Hk). reflexivity.
Qed.

Lemma agent_velocity_schedule_only_witness :
  exists pc2 st1 st2 a1 a2,
    precalculate slow_config = Some pc2 /\
    initial_state half_draw small_config = Some st1 /\
    initial_state high_draw slow_config = Some st2 /\
    p st1 !! 0%nat <> p st2 !! 0%nat /\
    freq small_config <> freq slow_config /\
    move_agent sample_agent small_config 0 st1 = Some a1 /\
    move_agent sample_agent slow_config 0 st2 = Some a2 /\
    fst a1 !! 1%nat <> fst a2 !! 1%nat /\
    snd a1 = snd a2 /\
    forall k, (k < 2)%nat ->
      observed_velocity small_config (fst a1) 0 k
      == observed_velocity slow_config (fst a2) 0 k.
Proof.
  destruct (precalculate slow_config) as [pc2|] eqn:Epc;
    [| vm_compute in Epc; discriminate Epc].
  destruct (initial_state half_draw small_config) as [st1|] eqn:E1;
    [| vm_compute in E1; discriminate E1].
  destruct (initial_state high_draw slow_config) as [st2|] eqn:E2;
    [| vm_compute in E2; discriminate E2].
  destruct (move_agent sample_agent small_config 0 st1) as [a1|] eqn:A1;
    [| vm_compute in E1; injection E1 as <-; vm_compute in A1; discriminate A1].
  destruct (move_agent sample_agent slow_config 0 st2) as [a2|] eqn:A2;
    [| vm_compute in E2; injection E2 as <-; vm_compute in A2; discriminate A2].
  exists pc2, st1, st2, a1, a2.
  split; [reflexivity|]. split; [reflexivity|]. split; [reflexivity|].
  split.
  { vm_compute in E1, E2. injection E1 as <-. injection E2 as <-.
    vm_compute. discriminate. }
  split; [vm_compute; discriminate|].
  split; [exact A1|]. split; [exact A2|].
  split.
  { vm_compute in E1, E2. injection E1 as <-. injection E2 as <-.
    vm_compute in A1, A2. injection A1 as <-. injection A2 as <-.
    vm_compute. discriminate. }
  assert (Hh1 : head_of_pass sample_huil halt_controller sample_agent None
                  half_draw small_config small_precalc 0 st1).
  { apply head_first; [vm_compute; reflexivity | exact E1 | vm_compute; lia]. }
  assert (Hh2 : head_of_pass plain_huil pass_controller sample_agent
                  (Some (sample_names 3 3)) high_draw slow_config pc2 0 st2).
  { apply head_first; [exact Epc | exact E2 | vm_compute; lia]. }
  destruct (agent_velocity_schedule_only sample_agent _ _ _ _ _ _ _ _ _ _ _ _
              _ _ _ _ _ Hh1 Hh2 eq_refl eq_refl eq_refl eq_refl eq_refl A1 A2)
    as (V & _ & O).
  split; [exact V|]. intros k Hk. exact (proj1 (O k Hk)).
Defined.

(** * Further properties of the program *)

(** ** The graph loop (main.py, lines 92-107) *)

Lemma edge_in_iff (e : edge) es : edge_in e es = true <-> e ∈ es.
Proof.
  unfold edge_in. rewrite existsb_exists. split.
  - intros ([a b] & Hin & H). apply andb_true_iff in H as [H1 H2].
    apply Z.eqb_eq in H1, H2. destruct e as [x y]. cbn in H1, H2. subst.
    apply list_elem_of_In. exact Hin.
  - intros H. exists e. split; [apply list_elem_of_In; exact H|].
    rewrite !Z.eqb_refl. reflexivity.
Qed.

Lemma edge_in_false (e : edge) es : edge_in e es = false <-> e ∉ es.
Proof.
  rewrite <- edge_in_iff. destruct (edge_in e es); split; congruence.
Qed.

Lemma entry_lookup (M : matrix) i row k :
  M !! i = Some row -> entry M i k = coord row k.
Proof.
  intros H. unfold entry. rewrite (nth_lookup_Some M i [] row H). reflexivity.
Qed.

Lemma mat_set_length (M : matrix) i c x : length (mat_set M i c x) = length M.
Proof.
  unfold mat_set. destruct (M !! i); [apply length_insert | reflexivity].
Qed.

Lemma mat_set_lookup_ne (M : matrix) i c x r :
  r <> i -> mat_set M i c x !! r = M !! r.
Proof.
  intros H. unfold mat_set. destruct (M !! i); [| reflexivity].
  apply list_lookup_insert_ne. congruence.
Qed.

Lemma mat_set_lookup_eq (M : matrix) i c x row :
  M !! i = Some row -> mat_set M i c x !! i = Some (<[c := x]> row).
Proof.
  intros H. unfold mat_set. rewrite H.
  apply list_lookup_insert_eq. apply lookup_lt_Some in H. exact H.
Qed.

Lemma py_index_lt n k c : py_index n k = Some c -> (c < n)%nat.
Proof.
  unfold py_index. intros H.
  destruct ((0 <=? k)%Z && (k <? Z.of_nat n)%Z) eqn:E1.
  - injection H as <-. apply andb_true_iff in E1 as [H1 H2].
    apply Z.leb_le in H1. apply Z.ltb_lt in H2. lia.
  - destruct ((- Z.of_nat n <=? k)%Z && (k <? 0)%Z) eqn:E2; [| discriminate H].
    injection H as <-. apply andb_true_iff in E2 as [H1 H2].
    apply Z.leb_le in H1. apply Z.ltb_lt in H2. lia.
Qed.

Lemma marks_app n es1 es2 r k :
  marks n (es1 ++ es2) r k = marks n es1 r k || marks n es2 r k.
Proof. unfold marks. apply existsb_app. Qed.

Lemma marks_other n es r k :
  Forall (fun e => fst e <> r) es -> marks n es r k = false.
Proof.
  intros H. unfold marks. induction H as [|e es He _ IH]; [reflexivity|].
  cbn [existsb]. rewrite IH.
  destruct (Z.eqb_spec (fst e) r) as [E|E]; [contradiction | reflexivity].
Qed.

(** What the inner loop over the neighbours of robot [i] does to the edge
    list and to the matrix. *)
Lemma scan_neighbours_spec n i (js : list Z) : forall es (L : matrix) es' L',
  scan_neighbours n i js es L = Some (es', L') ->
  (forall row, L !! i = Some row -> length row = n) ->
  exists new,
    es' = es ++ new /\
    Forall (fun e => fst e = (Z.of_nat i + 1)%Z /\ snd e ∈ js /\
                     is_Some (py_index n (snd e - 1)) /\
                     (e ∉ es) /\ ((snd e, fst e) ∉ es)) new /\
    (forall j, j ∈ js ->
       ((Z.of_nat i + 1)%Z, j) ∈ es' \/ (j, (Z.of_nat i + 1)%Z) ∈ es') /\
    (undirected_nodup es -> undirected_nodup es') /\
    length L' = length L /\
    (forall r, r <> i -> L' !! r = L !! r) /\
    (forall row, L !! i = Some row ->
       exists row', L' !! i = Some row' /\ length row' = n /\
         forall k, (k < n)%nat ->
           coord row' k =
           if marks n new (Z.of_nat i + 1)%Z k then -1 else coord row k).
Proof.
  induction js as [|j js IH]; intros es L es' L' H Hrow.
  - cbn in H. injection H as <- <-. exists [].
    rewrite app_nil_r. split; [reflexivity|].
    split; [constructor|].
    split; [intros j Hj; apply elem_of_nil in Hj; contradiction|].
    split; [intros Hud; exact Hud|].
    split; [reflexivity|]. split; [reflexivity|].
    intros row Hr. exists row. split; [exact Hr|].
    split; [apply Hrow; exact Hr | reflexivity].
  - cbn [scan_neighbours] in H.
    set (r := (Z.of_nat i + 1)%Z) in *.
    destruct (negb (edge_in (r, j) es) && negb (edge_in (j, r) es)) eqn:G.
    + apply andb_true_iff in G as [G1 G2].
      apply negb_true_iff in G1, G2. apply edge_in_false in G1, G2.
      apply bind_Some in H as (c & Hc & H).
      pose proof (py_index_lt _ _ _ Hc) as Hcn.
      assert (Hrow1 : forall row, mat_set L i c (-1) !! i = Some row ->
                                  length row = n).
      { intros row Hr. destruct (L !! i) as [row0|] eqn:E.
        - rewrite (mat_set_lookup_eq L i c (-1) row0 E) in Hr.
          injection Hr as <-. rewrite length_insert. apply Hrow. reflexivity.
        - unfold mat_set in Hr. rewrite E in Hr. congruence. }
      destruct (IH _ _ _ _ H Hrow1)
        as (new & -> & Hnew & Hcov & Hnd & Hlen & Hoth & Hi).
      assert (E : (es ++ [(r, j)]) ++ new = es ++ (r, j) :: new)
        by (rewrite <- app_assoc; reflexivity).
      rewrite E in Hcov, Hnd. rewrite E.
      exists ((r, j) :: new).
      split; [reflexivity|]. split.
      { constructor.
        - cbn [fst snd]. split; [reflexivity|]. split; [left|].
          split; [eexists; exact Hc|]. split; assumption.
        - eapply Forall_impl; [exact Hnew|]. cbn.
          intros e (E1 & E2 & E3 & E4 & E5).
          split; [exact E1|]. split; [right; exact E2|].
          split; [exact E3|].
          split; intros Hin; [apply E4 | apply E5];
            apply elem_of_app; left; exact Hin. }
      split.
      { intros j' Hj'. apply elem_of_cons in Hj' as [->|Hj'].
        - left. apply elem_of_app. right. left.
        - apply Hcov. exact Hj'. }
      split.
      { intros Hud.
        apply Hnd. destruct Hud as [Hn Hs]. split.
        - apply NoDup_app. split; [exact Hn|]. split.
          + intros x Hx Hx'. apply list_elem_of_singleton in Hx'. subst x.
            contradiction.
          + apply NoDup_singleton.
        - intros a b Ha Hb.
          apply elem_of_app in Ha as [Ha|Ha], Hb as [Hb|Hb].
          + apply Hs; assumption.
          + apply list_elem_of_singleton in Hb. injection Hb as -> ->.
            contradiction.
          + apply list_elem_of_singleton in Ha. injection Ha as -> ->.
            contradiction.
          + apply list_elem_of_singleton in Ha, Hb. congruence. }
      split; [rewrite Hlen; apply mat_set_length|].
      split.
      { intros r' Hr'. rewrite Hoth by exact Hr'.
        apply mat_set_lookup_ne. exact Hr'. }
      intros row Hr.
      destruct (Hi _ (mat_set_lookup_eq L i c (-1) row Hr))
        as (row' & Hr' & Hl' & Hk).
      exists row'. split; [exact Hr'|]. split; [exact Hl'|].
      intros k Hkn. rewrite (Hk k Hkn).
      change (marks n ((r, j) :: new) r k)
        with ((fst (r, j) =? r)%Z
                && bool_decide (py_index n (snd (r, j) - 1) = Some k)
              || marks n new r k).
      cbn [fst snd]. rewrite Z.eqb_refl, Hc. cbn [andb].
      destruct (marks n new r k); [rewrite orb_true_r; reflexivity|].
      rewrite orb_false_r.
      destruct (decide (c = k)) as [->|Hne].
      * rewrite bool_decide_eq_true_2 by reflexivity.
        apply coord_insert_eq. rewrite (Hrow row Hr). exact Hkn.
      * rewrite bool_decide_eq_false_2 by congruence.
        apply coord_insert_ne. exact Hne.
    + destruct (IH _ _ _ _ H Hrow)
        as (new & -> & Hnew & Hcov & Hnd & Hlen & Hoth & Hi).
      exists new. split; [reflexivity|]. split.
      { eapply Forall_impl; [exact Hnew|]. cbn.
        intros e (E1 & E2 & E3 & E4 & E5).
        repeat split; try assumption. right. exact E2. }
      split.
      { intros j' Hj'. apply elem_of_cons in Hj' as [->|Hj'].
        - apply andb_false_iff in G as [G|G];
            apply negb_false_iff, edge_in_iff in G;
            [left | right]; apply elem_of_app; left; exact G.
        - apply Hcov. exact Hj'. }
      split; [exact Hnd|]. split; [exact Hlen|].
      split; [exact Hoth | exact Hi].
Qed.

Lemma entry_same_row (M M' : matrix) i k :
  M' !! i = M !! i -> entry M' i k = entry M i k.
Proof.
  intros H. unfold entry. rewrite !nth_lookup, H. reflexivity.
Qed.

Lemma coord_insert_zeros n a x k :
  (a < n)%nat ->
  coord (<[a := x]> (zeros n)) k = if (k =? a)%nat then x else 0.
Proof.
  intros Ha. destruct (Nat.eqb_spec k a) as [->|Hne].
  - apply coord_insert_eq. unfold zeros. rewrite length_replicate. exact Ha.
  - rewrite coord_insert_ne by congruence. apply coord_zeros.
Qed.

(** One pass of the outer loop keeps the invariant. *)
Lemma scan_robot_step n nbs a g nb es L2 :
  graph_inv n nbs a g -> (a < n)%nat ->
  nbs !! a = Some nb ->
  scan_neighbours n a nb (edges g)
    (mat_set (L_G g) a a (inject_Z (Z.of_nat (length nb)))) = Some (es, L2) ->
  graph_inv n nbs (S a)
    {| number_neighbours := number_neighbours g ++ [length nb];
       edges := es; L_G := L2 |}.
Proof.
  intros (I1 & I2 & I3 & I4 & I5 & I6 & I7 & I8) Ha Hnb H.
  pose proof (I8 a ltac:(lia) Ha) as Hza.
  pose proof (mat_set_lookup_eq _ a a (inject_Z (Z.of_nat (length nb))) _ Hza)
    as Hrow1.
  destruct (scan_neighbours_spec n a nb _ _ _ _ H)
    as (new & -> & Hnew & Hcov & Hnd & Hlen & Hoth & Hi).
  { intros row Hr. rewrite Hrow1 in Hr. injection Hr as <-.
    rewrite length_insert. apply length_replicate. }
  destruct (Hi _ Hrow1) as (row' & Hr' & Hl' & Hk).
  assert (Hold : Forall (fun e => fst e <> (Z.of_nat a + 1)%Z) (edges g)).
  { eapply Forall_impl; [exact I3|]. cbn.
    intros e (i & nb' & Hlt & Hf & _). lia. }
  assert (Hnewfst : Forall (fun e => fst e = (Z.of_nat a + 1)%Z) new).
  { eapply Forall_impl; [exact Hnew|]. cbn. intros e (E1 & _). exact E1. }
  unfold graph_inv. cbn [number_neighbours edges L_G].
  split.
  { rewrite (take_S_r nbs a nb Hnb), map_app, I1. reflexivity. }
  split; [apply Hnd; exact I2|].
  split.
  { apply Forall_app. split.
    - eapply Forall_impl; [exact I3|]. cbn.
      intros e (i & nb' & Hlt & Hrest). exists i, nb'.
      split; [lia | exact Hrest].
    - apply Forall_forall. intros e He.
      pose proof (proj1 (Forall_forall _ _) Hnew e He)
        as (E1 & E2 & E3 & E4 & E5).
      exists a, nb. split; [lia|]. split; [exact E1|].
      split; [exact Hnb|]. split; [exact E2|]. split; [exact E3|].
      intros k nbk Hk' Hnbk Hs Hin. rewrite E1 in Hin.
      destruct (I4 k nbk _ Hk' Hnbk Hin) as [Hc|Hc].
      + apply E5. rewrite E1, Hs. exact Hc.
      + apply E4. destruct e as [e1 e2]. cbn [fst snd] in *. subst. exact Hc. }
  split.
  { intros i nb' j Hlt Hnb' Hj.
    destruct (decide (i = a)) as [->|Hne].
    - rewrite Hnb in Hnb'. injection Hnb' as <-. apply Hcov. exact Hj.
    - destruct (I4 i nb' j ltac:(lia) Hnb' Hj) as [Hc|Hc];
        [left | right]; apply elem_of_app; left; exact Hc. }
  split; [rewrite Hlen, mat_set_length; exact I5|].
  split.
  { apply Forall_lookup. intros r row Hr.
    destruct (decide (r = a)) as [->|Hne].
    - rewrite Hr' in Hr. injection Hr as <-. exact Hl'.
    - rewrite Hoth, mat_set_lookup_ne in Hr by exact Hne.
      exact (proj1 (Forall_lookup _ _) I6 r row Hr). }
  split.
  { intros i k nb' Hlt Hin Hkn Hnb'. rewrite marks_app.
    destruct (decide (i = a)) as [->|Hne].
    - rewrite Hnb in Hnb'. injection Hnb' as <-.
      rewrite (marks_other n (edges g) _ k Hold). cbn [orb].
      rewrite (entry_lookup _ _ _ k Hr'), (Hk k Hkn).
      rewrite coord_insert_zeros by exact Ha. reflexivity.
    - rewrite (marks_other n new (Z.of_nat i + 1)%Z k), orb_false_r.
      + rewrite (entry_same_row (L_G g) L2 i k).
        * apply I7; (lia || assumption).
        * rewrite Hoth by exact Hne. apply mat_set_lookup_ne. exact Hne.
      + eapply Forall_impl; [exact Hnewfst|]. cbn. intros e He. lia. }
  intros i Hge Hlt. rewrite Hoth, mat_set_lookup_ne by lia.
  apply I8; lia.
Qed.

(** The outer loop over the robots [a, a+1, ..., a+m-1]. *)
Lemma scan_robots_inv n nbs m : forall a g g',
  graph_inv n nbs a g -> (a + m <= n)%nat ->
  scan_robots n nbs (seq a m) g = Some g' ->
  graph_inv n nbs (a + m) g'.
Proof.
  induction m as [|m IH]; intros a g g' Hinv Hle H.
  - cbn in H. injection H as <-. rewrite Nat.add_0_r. exact Hinv.
  - cbn [seq scan_robots] in H.
    apply bind_Some in H as (nb & Hnb & H).
    apply bind_Some in H as ([es L2] & Hscan & H).
    replace (a + S m)%nat with (S a + m)%nat by lia.
    eapply IH; [| lia | exact H].
    eapply scan_robot_step; try eassumption. lia.
Qed.

Lemma graph_inv_start n nbs :
  graph_inv n nbs 0
    {| number_neighbours := []; edges := []; L_G := zeros2 n n |}.
Proof.
  unfold graph_inv. cbn [number_neighbours edges L_G].
  split; [rewrite take_0; reflexivity|].
  split.
  { split; [constructor|]. intros a b Hab. apply elem_of_nil in Hab.
    contradiction. }
  split; [constructor|].
  split; [intros i nb j Hi; lia|].
  split; [apply length_replicate|].
  split; [apply Forall_replicate; apply length_replicate|].
  split; [intros i k nb Hi; lia|].
  intros i _ Hi. unfold zeros2. apply lookup_replicate_2. exact Hi.
Qed.

Lemma build_graph_inv c g :
  build_graph c = Some g ->
  graph_inv (number_robots c) (neighbours c) (number_robots c) g.
Proof.
  unfold build_graph. intros H.
  apply (scan_robots_inv _ _ (number_robots c) 0 _ g (graph_inv_start _ _));
    [lia | exact H].
Qed.

Lemma scan_robots_lookups n nbs todo : forall g g',
  scan_robots n nbs todo g = Some g' ->
  forall i, i ∈ todo -> is_Some (nbs !! i).
Proof.
  induction todo as [|a todo IH]; intros g g' H i Hi.
  - apply elem_of_nil in Hi. contradiction.
  - cbn [scan_robots] in H.
    apply bind_Some in H as (nb & Hnb & H).
    apply bind_Some in H as ([es L2] & _ & H).
    apply elem_of_cons in Hi as [->|Hi]; [eexists; exact Hnb|].
    eapply IH; eassumption.
Qed.

Lemma build_graph_lists c g :
  build_graph c = Some g -> (number_robots c <= length (neighbours c))%nat.
Proof.
  unfold build_graph. intros H.
  destruct (number_robots c) as [|m] eqn:E; [lia|].
  destruct (scan_robots_lookups _ _ _ _ _ H m) as [nb Hnb].
  - apply elem_of_seq. lia.
  - apply lookup_lt_Some in Hnb. lia.
Qed.

(** X1. When the graph loop goes through, there is a neighbour list for
    every robot, [number_neighbours] holds the lengths of the lists of the
    robots in order, and [L_G] is still a square matrix of the size of the
    formation. *)
Theorem graph_shape c g :
  build_graph c = Some g ->
  (number_robots c <= length (neighbours c))%nat /\
  number_neighbours g = map length (take (number_robots c) (neighbours c)) /\
  length (L_G g) = number_robots c /\
  Forall (fun row => length row = number_robots c) (L_G g).
Proof.
  intros H. split; [eapply build_graph_lists; exact H|].
  destruct (build_graph_inv c g H) as (I1 & _ & _ & _ & I5 & I6 & _).
  repeat split; assumption.
Qed.

Lemma graph_shape_witness :
  exists g,
    build_graph small_config = Some g /\
    (number_robots small_config <= length (neighbours small_config))%nat /\
    number_neighbours g =
      map length (take (number_robots small_config) (neighbours small_config)) /\
    length (L_G g) = number_robots small_config /\
    Forall (fun row => length row = number_robots small_config) (L_G g).
Proof.
  destruct (build_graph small_config) as [g|] eqn:E;
    [| vm_compute in E; discriminate E].
  exists g. split; [reflexivity|]. exact (graph_shape small_config g E).
Defined.

(** X2. The edge list never holds a pair twice, and never holds a pair
    together with its reverse, whatever the neighbour lists are. *)
Theorem edges_listed_once c g :
  build_graph c = Some g ->
  NoDup (edges g) /\
  forall a b, (a, b) ∈ edges g -> (b, a) ∈ edges g -> a = b.
Proof.
  intros H. destruct (build_graph_inv c g H) as (_ & I2 & _). exact I2.
Qed.

Lemma edges_listed_once_witness :
  exists g,
    build_graph default_config = Some g /\
    NoDup (edges g) /\
    forall a b, (a, b) ∈ edges g -> (b, a) ∈ edges g -> a = b.
Proof.
  destruct (build_graph default_config) as [g|] eqn:E;
    [| vm_compute in E; discriminate E].
  exists g. split; [reflexivity|]. exact (edges_listed_once default_config g E).
Defined.

(** X3. Every listed edge (a, b) starts at a robot a of the formation and
    ends at a label b of that robot's neighbour list; and every neighbour
    relation of a robot of the formation is covered by a listed edge, in
    one orientation or the other. *)
Theorem edges_sound_and_complete c g :
  build_graph c = Some g ->
  (forall a b, (a, b) ∈ edges g ->
     exists i nb, (i < number_robots c)%nat /\ a = (Z.of_nat i + 1)%Z /\
                  neighbours c !! i = Some nb /\ b ∈ nb) /\
  (forall i nb j, (i < number_robots c)%nat ->
     neighbours c !! i = Some nb -> j ∈ nb ->
     ((Z.of_nat i + 1)%Z, j) ∈ edges g \/ (j, (Z.of_nat i + 1)%Z) ∈ edges g).
Proof.
  intros H. destruct (build_graph_inv c g H) as (_ & _ & I3 & I4 & _).
  split; [| exact I4].
  intros a b Hab.
  destruct (proj1 (Forall_forall _ _) I3 (a, b) Hab)
    as (i & nb & Hi & Hf & Hnb & Hs & _).
  exists i, nb. repeat split; assumption.
Qed.

Lemma edges_sound_and_complete_witness :
  exists g,
    build_graph small_config = Some g /\
    (forall a b, (a, b) ∈ edges g ->
       exists i nb, (i < number_robots small_config)%nat /\
                    a = (Z.of_nat i + 1)%Z /\
                    neighbours small_config !! i = Some nb /\ b ∈ nb) /\
    (forall i nb j, (i < number_robots small_config)%nat ->
       neighbours small_config !! i = Some nb -> j ∈ nb ->
       ((Z.of_nat i + 1)%Z, j) ∈ edges g \/ (j, (Z.of_nat i + 1)%Z) ∈ edges g).
Proof.
  destruct (build_graph small_config) as [g|] eqn:E;
    [| vm_compute in E; discriminate E].
  exists g. split; [reflexivity|].
  exact (edges_sound_and_complete small_config g E).
Defined.

(** X4. The entries of the matrix the loop leaves: row i holds -1 in the
    columns of the edges listed from robot i+1, and elsewhere the number of
    listed neighbours on the diagonal and 0 off it.  An edge listed from its
    other end leaves no -1 in row i. *)
Theorem L_G_entries c g i k nb :
  build_graph c = Some g ->
  (i < number_robots c)%nat -> (k < number_robots c)%nat ->
  neighbours c !! i = Some nb ->
  entry (L_G g) i k =
    if marks (number_robots c) (edges g) (Z.of_nat i + 1)%Z k then -1
    else if (k =? i)%nat then inject_Z (Z.of_nat (length nb)) else 0.
Proof.
  intros H Hi Hk Hnb.
  destruct (build_graph_inv c g H) as (_ & _ & _ & _ & _ & _ & I7 & _).
  apply I7; assumption.
Qed.

Lemma L_G_entries_witness :
  exists g,
    build_graph small_config = Some g /\
    entry (L_G g) 1 0 =
      if marks (number_robots small_config) (edges g) (Z.of_nat 1 + 1)%Z 0
      then -1
      else if (0 =? 1)%nat then inject_Z (Z.of_nat (length [1%Z])) else 0.
Proof.
  destruct (build_graph small_config) as [g|] eqn:E;
    [| vm_compute in E; discriminate E].
  exists g. split; [reflexivity|].
  apply (L_G_entries small_config g 1 0 [1%Z] E).
  - vm_compute. lia.
  - vm_compute. lia.
  - reflexivity.
Defined.

Lemma marks_true_iff n es r k :
  marks n es r k = true <->
  exists e, e ∈ es /\ fst e = r /\ py_index n (snd e - 1) = Some k.
Proof.
  unfold marks. rewrite existsb_exists. split.
  - intros (e & Hin & H). apply andb_true_iff in H as [H1 H2].
    apply Z.eqb_eq in H1. apply bool_decide_eq_true in H2.
    exists e. split; [apply list_elem_of_In; exact Hin|]. split; assumption.
  - intros (e & Hin & H1 & H2). exists e.
    split; [apply list_elem_of_In; exact Hin|].
    apply andb_true_iff. split; [apply Z.eqb_eq; exact H1|].
    apply bool_decide_eq_true. exact H2.
Qed.

(** X5. For neighbour lists that name robots of the formation, never the
    robot itself, and list every edge from both ends, the matrix the loop
    leaves is upper triangular: row i has the number of neighbours of robot
    i on the diagonal, -1 at the neighbours of larger index, and 0 at every
    smaller index -- also at the neighbours of smaller index. *)
Theorem L_G_upper_triangular c g i k nb :
  build_graph c = Some g ->
  symmetric_neighbours (neighbours c) ->
  (forall i' nb' j, neighbours c !! i' = Some nb' -> j ∈ nb' ->
     (1 <= j <= Z.of_nat (number_robots c))%Z /\ j <> (Z.of_nat i' + 1)%Z) ->
  (i < number_robots c)%nat -> (k < number_robots c)%nat ->
  neighbours c !! i = Some nb ->
  entry (L_G g) i k =
    if (k <? i)%nat then 0
    else if (k =? i)%nat then inject_Z (Z.of_nat (length nb))
    else if bool_decide ((Z.of_nat k + 1)%Z ∈ nb) then -1 else 0.
Proof.
  intros H Hsym Hwf Hi Hk Hnb.
  pose proof (build_graph_lists c g H) as Hlen.
  destruct (build_graph_inv c g H) as (_ & I2 & I3 & I4 & _ & _ & I7 & _).
  rewrite (I7 i k nb Hi Hi Hk Hnb).
  assert (Hm : marks (number_robots c) (edges g) (Z.of_nat i + 1)%Z k = true <->
               (i < k)%nat /\ (Z.of_nat k + 1)%Z ∈ nb).
  { rewrite marks_true_iff. split.
    - intros ([e1 e2] & Hin & Hf & Hp). cbn [fst snd] in Hf, Hp.
      destruct (proj1 (Forall_forall _ _) I3 _ Hin)
        as (i' & nb' & Hi' & Hf' & Hnb' & Hs & _ & Hord).
      cbn [fst snd] in Hf', Hs, Hord.
      assert (i' = i) as -> by lia.
      rewrite Hnb in Hnb'. injection Hnb' as <-.
      destruct (Hwf i nb e2 Hnb Hs) as [Hr Hne].
      rewrite py_index_in_range in Hp by lia. injection Hp as Hp.
      assert (He2 : e2 = (Z.of_nat k + 1)%Z) by lia. subst e2.
      split; [| exact Hs].
      destruct (decide (k < i)%nat) as [Hlt|Hge]; [| lia].
      exfalso.
      destruct (lookup_lt_is_Some_2 (neighbours c) k ltac:(lia)) as [nbk Hnbk].
      apply (Hord k nbk Hlt Hnbk eq_refl). rewrite Hf.
      exact (Hsym i k nb nbk Hnb Hnbk Hs).
    - intros [Hlt Hin].
      destruct (I4 i nb _ Hi Hnb Hin) as [Hc|Hc].
      + exists ((Z.of_nat i + 1)%Z, (Z.of_nat k + 1)%Z).
        split; [exact Hc|]. split; [reflexivity|]. cbn [snd].
        rewrite py_index_in_range by lia. f_equal. lia.
      + exfalso.
        destruct (proj1 (Forall_forall _ _) I3 _ Hc)
          as (i' & nb' & Hi' & Hf' & Hnb' & Hs & _ & Hord).
        cbn [fst snd] in Hf', Hs, Hord.
        assert (i' = k) as -> by lia.
        apply (Hord i nb Hlt Hnb eq_refl). exact Hin. }
  destruct (marks _ _ _ _) eqn:E.
  - destruct (proj1 Hm eq_refl) as [Hlt Hin].
    destruct (Nat.ltb_spec k i) as [?|_]; [lia|].
    destruct (Nat.eqb_spec k i) as [?|_]; [lia|].
    rewrite bool_decide_eq_true_2 by exact Hin. reflexivity.
  - destruct (Nat.ltb_spec k i) as [Hlt|Hge].
    + destruct (Nat.eqb_spec k i) as [?|_]; [lia | reflexivity].
    + destruct (Nat.eqb_spec k i) as [_|Hne]; [reflexivity|].
      rewrite bool_decide_eq_false_2; [reflexivity|].
      intros Hin. assert (Hft : false = true); [| discriminate Hft].
      apply Hm. split; [lia | exact Hin].
Qed.

Lemma complete_neighbours_symmetric n : symmetric_neighbours (complete_neighbours n).
Proof.
  intros i k nb nbk Hi Hk Hin.
  pose proof (complete_neighbours_wf n i nb Hi) as [_ Hr].
  destruct (Hr _ Hin) as [_ Hne].
  pose proof (lookup_lt_Some _ _ _ Hi) as Li.
  rewrite complete_neighbours_length in Li.
  unfold complete_neighbours in Hk. rewrite map_lookup in Hk.
  destruct (seq 0 n !! k) as [k'|] eqn:E; [| discriminate Hk].
  apply lookup_seq in E as [-> Hkn]. cbn [fmap option_fmap option_map] in Hk.
  injection Hk as <-.
  change (map (fun i0 : nat => (Z.of_nat i0 + 1)%Z)
              (filter (fun i0 : nat => i0 <> (0 + k)%nat) (seq 0 n)))
    with ((fun i0 : nat => (Z.of_nat i0 + 1)%Z) <$>
              (filter (fun i0 : nat => i0 <> (0 + k)%nat) (seq 0 n))).
  apply list_elem_of_fmap. exists i. split; [reflexivity|].
  apply list_elem_of_filter. split; [lia|]. apply elem_of_seq. lia.
Qed.

Lemma L_G_upper_triangular_witness :
  exists g,
    build_graph default_config = Some g /\
    entry (L_G g) 5 2 =
      if (2 <? 5)%nat then 0
      else if (2 =? 5)%nat
           then inject_Z (Z.of_nat (length (nth 5 (neighbours default_config) [])))
      else if bool_decide ((Z.of_nat 2 + 1)%Z ∈ nth 5 (neighbours default_config) [])
           then -1 else 0.
Proof.
  destruct (build_graph default_config) as [g|] eqn:E;
    [| vm_compute in E; discriminate E].
  exists g. split; [reflexivity|].
  apply (L_G_upper_triangular default_config g 5 2 _ E).
  - apply complete_neighbours_symmetric.
  - intros i' nb' j Hnb' Hj.
    destruct (complete_neighbours_wf _ i' nb' Hnb') as [_ Hr].
    destruct (Hr j Hj) as [Hrange Hne].
    rewrite complete_neighbours_length in Hrange. split; assumption.
  - vm_compute. lia.
  - vm_compute. lia.
  - reflexivity.
Defined.

Lemma scan_neighbours_progress n i (js : list Z) : forall es (L : matrix),
  (forall j, j ∈ js -> is_Some (py_index n (j - 1))) ->
  is_Some (scan_neighbours n i js es L).
Proof.
  induction js as [|j js IH]; intros es L Hjs; [eexists; reflexivity|].
  cbn [scan_neighbours].
  destruct (negb _ && negb _).
  - destruct (Hjs j ltac:(left)) as [c ->]. cbn [mbind option_bind].
    apply IH. intros j' Hj'. apply Hjs. right. exact Hj'.
  - apply IH. intros j' Hj'. apply Hjs. right. exact Hj'.
Qed.

Lemma scan_robots_progress n nbs todo : forall g,
  (forall i, i ∈ todo ->
     exists nb, nbs !! i = Some nb /\
                forall j, j ∈ nb -> is_Some (py_index n (j - 1))) ->
  is_Some (scan_robots n nbs todo g).
Proof.
  induction todo as [|a todo IH]; intros g Hall; [eexists; reflexivity|].
  cbn [scan_robots].
  destruct (Hall a ltac:(left)) as (nb & -> & Hnb). cbn [mbind option_bind].
  destruct (scan_neighbours_progress n a nb (edges g)
              (mat_set (L_G g) a a (inject_Z (Z.of_nat (length nb)))) Hnb)
    as [[es L2] ->].
  cbn [mbind option_bind]. apply IH.
  intros i Hi. apply Hall. right. exact Hi.
Qed.

(** X6. The graph loop goes through exactly when there is a neighbour list
    for every robot of the formation and every label in these lists is a
    valid column index of the matrix, negative indices included: a label j
    with -N < j <= N.  Any other label, and any missing list, makes the
    loop raise. *)
Theorem build_graph_succeeds_iff c :
  is_Some (build_graph c) <->
  (number_robots c <= length (neighbours c))%nat /\
  forall i nb j, (i < number_robots c)%nat ->
    neighbours c !! i = Some nb -> j ∈ nb ->
    (- Z.of_nat (number_robots c) < j <= Z.of_nat (number_robots c))%Z.
Proof.
  assert (Hidx : forall n j, is_Some (py_index n (j - 1)) <->
                             (- Z.of_nat n < j <= Z.of_nat n)%Z).
  { intros n j. unfold py_index.
    destruct ((0 <=? j - 1)%Z && (j - 1 <? Z.of_nat n)%Z) eqn:E1.
    - apply andb_true_iff in E1 as [H1 H2].
      apply Z.leb_le in H1. apply Z.ltb_lt in H2.
      split; [intros _; lia | intros _; eexists; reflexivity].
    - destruct ((- Z.of_nat n <=? j - 1)%Z && (j - 1 <? 0)%Z) eqn:E2.
      + apply andb_true_iff in E2 as [H1 H2].
        apply Z.leb_le in H1. apply Z.ltb_lt in H2.
        split; [intros _; lia | intros _; eexists; reflexivity].
      + split; [intros [x Hx]; discriminate Hx|].
        intros Hr. exfalso.
        apply andb_false_iff in E1. apply andb_false_iff in E2.
        rewrite !Z.leb_gt, !Z.ltb_ge in *. lia. }
  split.
  - intros [g H]. split; [eapply build_graph_lists; exact H|].
    intros i nb j Hi Hnb Hj. apply Hidx.
    destruct (build_graph_inv c g H) as (_ & _ & I3 & I4 & _).
    destruct (I4 i nb j Hi Hnb Hj) as [Hc|Hc];
      destruct (proj1 (Forall_forall _ _) I3 _ Hc)
        as (i' & nb' & Hi' & Hf & _ & _ & Hp & _);
      cbn [fst snd] in Hf, Hp; [exact Hp|].
    apply Hidx. lia.
  - intros [Hlen Hall]. unfold build_graph. apply scan_robots_progress.
    intros i Hi. apply elem_of_seq in Hi.
    destruct (lookup_lt_is_Some_2 (neighbours c) i ltac:(lia)) as [nb Hnb].
    exists nb. split; [exact Hnb|].
    intros j Hj. apply Hidx. apply (Hall i nb j); [lia | assumption..].
Qed.

(** ** The constraint matrices (main.py, lines 117-131) *)

Lemma set_block_length B : forall (M : matrix) r0 c0,
  length (set_block M r0 c0 B) = length M.
Proof.
  induction B as [|brow B IH]; intros M r0 c0; [reflexivity|].
  cbn [set_block]. rewrite IH. apply length_alter.
Qed.

Lemma fill_blocks_snd aw todo : forall Aa Awd,
  snd (fill_blocks aw todo Aa Awd) =
  fold_left (fun M i => set_block M (2 * i) (2 * i) aw) todo Awd.
Proof.
  induction todo as [|i todo IH]; intros Aa Awd; [reflexivity|].
  cbn [fill_blocks fold_left]. apply IH.
Qed.

Lemma block_fold_length h (B : matrix) todo : forall M0 : matrix,
  length (fold_left (fun M i => set_block M (h * i) (2 * i) B) todo M0)
  = length M0.
Proof.
  induction todo as [|i todo IH]; intros M0; [reflexivity|].
  cbn [fold_left]. rewrite IH. apply set_block_length.
Qed.

(** Blocks of height [h] written down the diagonal: row [h j + r] gets row
    [r] of the block at the columns of robot [j]. *)
Lemma block_fold_lookup h (B : matrix) (M0 : matrix) n :
  length B = h ->
  forall j r, (r < h)%nat ->
    fold_left (fun M i => set_block M (h * i) (2 * i) B) (seq 0 n) M0
      !! (h * j + r)%nat =
    if decide (j < n)%nat
    then (fun row => set_row_slice row (2 * j) (nth r B []))
           <$> (M0 !! (h * j + r)%nat)
    else M0 !! (h * j + r)%nat.
Proof.
  intros HB. induction n as [|n IH]; intros j r Hr.
  - cbn [seq fold_left]. destruct (decide _) as [H|H]; [lia | reflexivity].
  - rewrite seq_S, fold_left_app. cbn [fold_left Nat.add].
    rewrite set_block_lookup, HB, (IH j r Hr).
    destruct (decide (h * n <= h * j + r < h * n + h)%nat) as [H1|H1].
    + assert (j = n) as -> by nia.
      destruct (decide (n < n)%nat) as [H2|_]; [lia|].
      destruct (decide (n < S n)%nat) as [_|H3]; [|lia].
      replace (h * n + r - h * n)%nat with r by lia. reflexivity.
    + destruct (decide (j < n)%nat) as [H2|H2];
        destruct (decide (j < S n)%nat) as [H3|H3]; try lia; try reflexivity.
      exfalso. apply H1. assert (j = n) by lia. subst j. lia.
Qed.

Lemma precalculate_inv c pc :
  precalculate c = Some pc ->
  exists g aw,
    build_graph c = Some g /\ Aw c = Some aw /\
    pc_graph pc = g /\ pc_p_d pc = p_d c /\
    A_arena pc =
      fold_left (fun M i => set_block M (4 * i) (2 * i) As)
        (seq 0 (number_robots c))
        (zeros2 (number_robots c * 4) (number_robots c * 2)) /\
    A_wedge pc =
      fold_left (fun M i => set_block M (2 * i) (2 * i) aw)
        (seq 0 (number_robots c))
        (zeros2 (number_robots c * 2) (number_robots c * 2)) /\
    b_arena pc = zeros (number_robots c * 4) /\
    b_wedge pc = zeros (number_robots c * 2) /\
    A_extra pc = zeros2 (number_robots c) (number_robots c * dim) /\
    b_extra pc = zeros (number_robots c).
Proof.
  unfold precalculate. intros H.
  apply bind_Some in H as (g & Hg & H).
  apply bind_Some in H as (aw & Haw & H).
  destruct (fill_blocks aw (seq 0 (number_robots c))
              (zeros2 (number_robots c * 4) (number_robots c * 2))
              (zeros2 (number_robots c * 2) (number_robots c * 2)))
    as [Aa Awd] eqn:E.
  injection H as <-.
  cbn [pc_graph pc_p_d A_arena A_wedge b_arena b_wedge A_extra b_extra].
  exists g, aw. split; [exact Hg|]. split; [exact Haw|].
  split; [reflexivity|]. split; [reflexivity|].
  split.
  { rewrite <- (fill_blocks_fst aw (seq 0 (number_robots c))
                  (zeros2 (number_robots c * 4) (number_robots c * 2))
                  (zeros2 (number_robots c * 2) (number_robots c * 2))), E.
    reflexivity. }
  split.
  { rewrite <- (fill_blocks_snd aw (seq 0 (number_robots c))
                  (zeros2 (number_robots c * 4) (number_robots c * 2))
                  (zeros2 (number_robots c * 2) (number_robots c * 2))), E.
    reflexivity. }
  repeat split.
Qed.

Lemma chunks_length {A} (f : nat -> list A) m (l : list nat) :
  (forall x, length (f x) = m) -> length (flat_map f l) = (m * length l)%nat.
Proof.
  intros Hf. induction l as [|x l IH]; [cbn; lia|].
  cbn [flat_map length]. rewrite length_app, Hf, IH. lia.
Qed.

(** X7. The arena matrix has four rows per robot and, applied to a command
    of the shape of the state, gives for every robot the four signed
    coordinates -u_x, u_x, -u_y, u_y of its own velocity and nothing of
    any other robot's. *)
Theorem A_arena_product c pc (u : vec) :
  precalculate c = Some pc ->
  length u = (number_robots c * 2)%nat ->
  length (A_arena pc) = (number_robots c * 4)%nat /\
  vec_eq (mat_vec (A_arena pc) u)
         (flat_map (fun j => [ - coord u (2 * j); coord u (2 * j);
                               - coord u (2 * j + 1); coord u (2 * j + 1) ])
                   (seq 0 (number_robots c))).
Proof.
  intros Hpc Lu.
  destruct (precalculate_inv c pc Hpc) as (g & aw & _ & _ & _ & _ & EA & _).
  assert (LA : length (A_arena pc) = (number_robots c * 4)%nat).
  { rewrite EA, block_fold_length. apply length_replicate. }
  split; [exact LA|].
  unfold vec_eq. apply Forall2_same_length_lookup. split.
  - unfold mat_vec. rewrite length_map, LA.
    rewrite (chunks_length _ 4) by reflexivity. rewrite length_seq. lia.
  - intros k x y Hx Hy.
    assert (Hk : (k < number_robots c * 4)%nat).
    { apply lookup_lt_Some in Hx. unfold mat_vec in Hx.
      rewrite length_map, LA in Hx. exact Hx. }
    pose proof (Nat.div_mod_eq k 4) as Ek.
    pose proof (Nat.mod_upper_bound k 4 ltac:(lia)) as Hr.
    remember (k / 4)%nat as j eqn:Ej. remember (k mod 4)%nat as r eqn:Er.
    clear Ej Er.
    assert (Hj : (j < number_robots c)%nat) by lia.
    rewrite Ek in Hx, Hy.
    unfold mat_vec in Hx.
    rewrite map_lookup, (A_arena_row c pc j r Hpc Hj Hr) in Hx.
    cbn [fmap option_fmap option_map] in Hx. injection Hx as <-.
    rewrite (flat_map_lookup_chunk _ 4) in Hy by (reflexivity || exact Hr).
    rewrite lookup_seq_lt in Hy by exact Hj.
    cbn [mbind option_bind] in Hy. change (0 + j)%nat with j in Hy.
    destruct r as [|[|[|[|r]]]]; [| | | |lia];
      cbn [nth As] in *; injection Hy as <-;
      rewrite dot_unit_block by lia;
      replace (j + (j + 0) + 1)%nat with (S (j + (j + 0))) by lia; ring.
Qed.

Lemma A_arena_product_witness :
  length (A_arena small_precalc) = (number_robots small_config * 4)%nat /\
  vec_eq (mat_vec (A_arena small_precalc) [1; 2; 3; 4])
         (flat_map (fun j => [ - coord [1; 2; 3; 4] (2 * j);
                               coord [1; 2; 3; 4] (2 * j);
                               - coord [1; 2; 3; 4] (2 * j + 1);
                               coord [1; 2; 3; 4] (2 * j + 1) ])
                   (seq 0 (number_robots small_config))).
Proof.
  apply (A_arena_product small_config small_precalc [1; 2; 3; 4]).
  - vm_compute. reflexivity.
  - reflexivity.
Defined.

Lemma A_wedge_row c pc aw j r :
  precalculate c = Some pc -> Aw c = Some aw ->
  (j < number_robots c)%nat -> (r < 2)%nat ->
  A_wedge pc !! (2 * j + r)%nat =
    Some (set_row_slice (zeros (number_robots c * 2)) (2 * j) (nth r aw [])).
Proof.
  intros Hpc Haw Hj Hr.
  destruct (precalculate_inv c pc Hpc)
    as (g & aw' & _ & Haw' & _ & _ & _ & EW & _).
  rewrite Haw in Haw'. injection Haw' as <-. rewrite EW.
  assert (Law : length aw = 2%nat).
  { unfold Aw in Haw. destruct (Qeq_bool _ _); [discriminate Haw|].
    injection Haw as <-. reflexivity. }
  rewrite (block_fold_lookup 2 aw _ _ Law j r Hr).
  destruct (decide (j < number_robots c)%nat) as [_|H]; [|lia].
  unfold zeros2. rewrite lookup_replicate_2 by lia. reflexivity.
Qed.

(** X8. The wedge matrix has two rows per robot and, applied to a command
    of the shape of the state, gives for every robot the two slanted
    combinations -s u_x - u_y and -s u_x + u_y of its own velocity, with the
    slope s = y_max / (2 x_max). *)
Theorem A_wedge_product c pc (u : vec) :
  precalculate c = Some pc ->
  length u = (number_robots c * 2)%nat ->
  length (A_wedge pc) = (number_robots c * 2)%nat /\
  vec_eq (mat_vec (A_wedge pc) u)
         (flat_map (fun j =>
                      [ - (y_max c / (2 * x_max c)) * coord u (2 * j)
                        - coord u (2 * j + 1);
                        - (y_max c / (2 * x_max c)) * coord u (2 * j)
                        + coord u (2 * j + 1) ])
                   (seq 0 (number_robots c))).
Proof.
  intros Hpc Lu.
  destruct (precalculate_inv c pc Hpc) as (g & aw & _ & Haw & _ & _ & _ & EW & _).
  assert (LA : length (A_wedge pc) = (number_robots c * 2)%nat).
  { rewrite EW, block_fold_length. apply length_replicate. }
  split; [exact LA|].
  assert (Eaw : aw = [ [- y_max c / (2 * x_max c); -1];
                       [- y_max c / (2 * x_max c); 1] ]).
  { unfold Aw in Haw. destruct (Qeq_bool _ _); [discriminate Haw|].
    injection Haw as <-. reflexivity. }
  unfold vec_eq. apply Forall2_same_length_lookup. split.
  - unfold mat_vec. rewrite length_map, LA.
    rewrite (chunks_length _ 2) by reflexivity. rewrite length_seq. lia.
  - intros k x y Hx Hy.
    assert (Hk : (k < number_robots c * 2)%nat).
    { apply lookup_lt_Some in Hx. unfold mat_vec in Hx.
      rewrite length_map, LA in Hx. exact Hx. }
    pose proof (Nat.div_mod_eq k 2) as Ek.
    pose proof (Nat.mod_upper_bound k 2 ltac:(lia)) as Hr.
    remember (k / 2)%nat as j eqn:Ej. remember (k mod 2)%nat as r eqn:Er.
    clear Ej Er.
    assert (Hj : (j < number_robots c)%nat) by lia.
    rewrite Ek in Hx, Hy.
    unfold mat_vec in Hx.
    rewrite map_lookup, (A_wedge_row c pc aw j r Hpc Haw Hj Hr) in Hx.
    cbn [fmap option_fmap option_map] in Hx. injection Hx as <-.
    rewrite (flat_map_lookup_chunk _ 2) in Hy by (reflexivity || exact Hr).
    rewrite lookup_seq_lt in Hy by exact Hj.
    cbn [mbind option_bind] in Hy. change (0 + j)%nat with j in Hy. subst aw.
    destruct r as [|[|r]]; [| |lia];
      cbn [nth] in *; injection Hy as <-;
      rewrite dot_unit_block by lia;
      replace (j + (j + 0) + 1)%nat with (S (j + (j + 0))) by lia;
      unfold Qdiv; ring.
Qed.

Lemma A_wedge_product_witness :
  length (A_wedge small_precalc) = (number_robots small_config * 2)%nat /\
  vec_eq (mat_vec (A_wedge small_precalc) [1; 2; 3; 4])
         (flat_map (fun j =>
                      [ - (y_max small_config / (2 * x_max small_config))
                          * coord [1; 2; 3; 4] (2 * j)
                        - coord [1; 2; 3; 4] (2 * j + 1);
                        - (y_max small_config / (2 * x_max small_config))
                          * coord [1; 2; 3; 4] (2 * j)
                        + coord [1; 2; 3; 4] (2 * j + 1) ])
                   (seq 0 (number_robots small_config))).
Proof.
  apply (A_wedge_product small_config small_precalc [1; 2; 3; 4]).
  - vm_compute. reflexivity.
  - reflexivity.
Defined.

(** X9. The pre-calculations go through exactly when the graph loop does
    and the window is not 5 wide: with winx = 5 the arena half-width x_max
    is 0 and the slope of the wedge rows divides by it, whether or not the
    wedge is selected. *)
Theorem precalculate_succeeds_iff c :
  is_Some (precalculate c) <-> is_Some (build_graph c) /\ winx c <> 5%Z.
Proof.
  assert (Hz : Qeq_bool (2 * x_max c) 0 = true <-> winx c = 5%Z).
  { rewrite Qeq_bool_iff. unfold x_max, Qeq. cbn. lia. }
  unfold precalculate, Aw. split.
  - intros [pc H].
    apply bind_Some in H as (g & Hg & H).
    apply bind_Some in H as (aw & Haw & _).
    split; [eexists; exact Hg|].
    destruct (Qeq_bool (2 * x_max c) 0) eqn:E; [discriminate Haw|].
    intros Hw. apply Hz in Hw. congruence.
  - intros [[g Hg] Hw]. rewrite Hg. cbn [mbind option_bind].
    destruct (Qeq_bool (2 * x_max c) 0) eqn:E;
      [exfalso; apply Hw, Hz; reflexivity|].
    cbn [mbind option_bind].
    destruct (fill_blocks _ _ _ _). eexists. reflexivity.
Qed.

(** ** The first columns of the histories (main.py, lines 148-175) *)

(** X10. The frames and the histories can be set up exactly when there is
    at least one column of history (max_T * freq > 0) and the robot the HuIL
    log is for has a label between -N and N: the label picks its two column
    names by index, so that 0 and negative labels are taken too, counting
    from the end. *)
Theorem initial_state_succeeds_iff rand c :
  is_Some (initial_state rand c) <->
  (0 < max_T c * freq c)%nat /\
  (- Z.of_nat (number_robots c) <= human_robot c <= Z.of_nat (number_robots c))%Z.
Proof.
  assert (Hidx : forall n k, is_Some (py_index n k) <->
                             (- Z.of_nat n <= k < Z.of_nat n)%Z).
  { intros n k. unfold py_index.
    destruct ((0 <=? k)%Z && (k <? Z.of_nat n)%Z) eqn:E1.
    - apply andb_true_iff in E1 as [H1 H2].
      apply Z.leb_le in H1. apply Z.ltb_lt in H2.
      split; [intros _; lia | intros _; eexists; reflexivity].
    - destruct ((- Z.of_nat n <=? k)%Z && (k <? 0)%Z) eqn:E2.
      + apply andb_true_iff in E2 as [H1 H2].
        apply Z.leb_le in H1. apply Z.ltb_lt in H2.
        split; [intros _; lia | intros _; eexists; reflexivity].
      + split; [intros [x Hx]; discriminate Hx|].
        intros Hr. exfalso.
        apply andb_false_iff in E1. apply andb_false_iff in E2.
        rewrite !Z.leb_gt, !Z.ltb_ge in *. lia. }
  unfold initial_state. split.
  - intros [st H].
    apply bind_Some in H as (k1 & H1 & H).
    apply bind_Some in H as (k2 & H2 & H).
    apply bind_Some in H as (p0 & Hp0 & _).
    apply set_col_inv in Hp0 as (HT & _).
    rewrite length_replicate in HT. unfold max_time_size in HT.
    split; [exact HT|].
    pose proof (proj1 (Hidx _ _) (ex_intro _ k1 H1)) as R1.
    pose proof (proj1 (Hidx _ _) (ex_intro _ k2 H2)) as R2. lia.
  - intros [HT Hh].
    destruct (proj2 (Hidx (S (2 * number_robots c)) (2 * human_robot c - 1)%Z)
                ltac:(lia)) as [k1 ->].
    destruct (proj2 (Hidx (S (2 * number_robots c)) (2 * human_robot c)%Z)
                ltac:(lia)) as [k2 ->].
    cbn [mbind option_bind].
    rewrite (set_col_Some (number_robots c * dim) _ 0 (initial_positions rand c))
      by (rewrite ?length_replicate; (exact HT || apply initial_positions_length)).
    cbn [mbind option_bind].
    rewrite (set_col_Some dim _ 0 [-5; 20])
      by (rewrite ?length_replicate; (exact HT || reflexivity)).
    eexists. reflexivity.
Qed.

(** ** The simulation loop (main.py, lines 177-229) *)

(** X11. With the names of the logging block unbound, as main.py leaves
    them, a run goes through exactly when the set-up does and there is a
    single column of history, so that the loop body is never entered; with
    two columns or more the first pass raises at the logging block. *)
Theorem unbound_names_run_iff hc cc erd rand c :
  is_Some (simulate hc cc erd None rand c) <->
  is_Some (precalculate c) /\ is_Some (initial_state rand c) /\
  (max_T c * freq c = 1)%nat.
Proof.
  unfold simulate. split.
  - intros [st H].
    apply bind_Some in H as (pc & Hpc & H).
    apply bind_Some in H as (st0 & H0 & H).
    split; [eexists; exact Hpc|]. split; [eexists; exact H0|].
    assert (HT : (0 < max_T c * freq c)%nat).
    { apply (proj1 (initial_state_succeeds_iff rand c)). eexists. exact H0. }
    unfold max_time_size in H.
    destruct (max_T c * freq c)%nat as [|[|T]] eqn:ET; [lia | reflexivity |].
    exfalso. cbn [Nat.sub seq loop] in H.
    rewrite step_needs_names in H. discriminate H.
  - intros ([pc Hpc] & [st0 H0] & HT).
    rewrite Hpc, H0. cbn [mbind option_bind].
    unfold max_time_size. rewrite HT. eexists. reflexivity.
Qed.

(** X12. Without the extra robot the history of the agent is never written
    after its first column: at the end of a run it is the position (-5, 20)
    followed by zeros. *)
Theorem agent_history_untouched hc cc erd names rand c st :
  extra_robot c = false ->
  simulate hc cc erd names rand c = Some st ->
  huil_p st = [-5; 20] :: replicate (max_T c * freq c - 1) (zeros dim).
Proof.
  intros He H. unfold simulate in H.
  apply bind_Some in H as (pc & Hpc & H).
  apply bind_Some in H as (st0 & H0 & H).
  assert (HT : (0 < max_T c * freq c)%nat).
  { apply (proj1 (initial_state_succeeds_iff rand c)). eexists. exact H0. }
  set (h0 := [-5; 20] :: replicate (max_T c * freq c - 1) (zeros dim)).
  assert (E0 : huil_p st0 = h0).
  { unfold initial_state in H0.
    apply bind_Some in H0 as (k1 & _ & H0).
    apply bind_Some in H0 as (k2 & _ & H0).
    apply bind_Some in H0 as (p0 & _ & H0).
    apply bind_Some in H0 as (hp0 & Hh0 & H0).
    injection H0 as <-. cbn [huil_p].
    apply set_col_inv in Hh0 as (_ & _ & ->).
    unfold max_time_size, h0.
    destruct (max_T c * freq c)%nat as [|T]; [lia|].
    cbn [replicate Nat.sub]. rewrite Nat.sub_0_r. reflexivity. }
  apply (loop_invariant (fun _ s => huil_p s = h0) hc cc erd names c pc)
    with (n := (max_time_size c - 1)%nat) (a := 0%nat) (st := st0);
    [| exact E0 | exact H].
  intros i s s' tr Hs Hstep.
  apply step_inv_agent in Hstep. rewrite He in Hstep.
  destruct Hstep as [_ ->]. exact Hs.
Qed.

Lemma agent_history_untouched_witness :
  exists st,
    simulate sample_huil pass_controller sample_agent (Some (sample_names 1 2))
             half_draw wedge_config = Some st /\
    huil_p st =
      [-5; 20] :: replicate (max_T wedge_config * freq wedge_config - 1)
                            (zeros dim).
Proof.
  destruct (simulate sample_huil pass_controller sample_agent
              (Some (sample_names 1 2)) half_draw wedge_config)
    as [st|] eqn:E; [| vm_compute in E; discriminate E].
  exists st. split; [reflexivity|].
  exact (agent_history_untouched sample_huil pass_controller sample_agent
           (Some (sample_names 1 2)) half_draw wedge_config st eq_refl E).
Defined.

Lemma loop_agent_agrees erd hc1 hc2 cc1 cc2 names1 names2 c1 c2 pc1 pc2 n :
  freq c1 = freq c2 -> max_T c1 = max_T c2 ->
  v_huil c1 = v_huil c2 -> division c1 = division c2 ->
  extra_robot c1 = extra_robot c2 ->
  forall a st1 st2 st1' st2',
    huil_p st1 = huil_p st2 ->
    loop hc1 cc1 erd names1 c1 pc1 (seq a n) st1 = Some st1' ->
    loop hc2 cc2 erd names2 c2 pc2 (seq a n) st2 = Some st2' ->
    huil_p st1' = huil_p st2'.
Proof.
  intros Hf HT Hv Hd He.
  induction n as [|n IH]; intros a st1 st2 st1' st2' E H1 H2.
  - cbn in H1, H2. injection H1 as <-. injection H2 as <-. exact E.
  - cbn [seq loop] in H1, H2.
    apply bind_Some in H1 as ([s1 tr1] & S1 & H1).
    apply bind_Some in H2 as ([s2 tr2] & S2 & H2).
    cbn [fst] in H1, H2.
    apply (IH (S a) s1 s2 st1' st2'); [| exact H1 | exact H2].
    apply step_inv_agent in S1, S2.
    rewrite <- He in S2. destruct (extra_robot c1).
    + destruct S1 as (h1 & n1 & L1 & _ & E1 & _ & _ & ->).
      destruct S2 as (h2 & n2 & L2 & _ & E2 & _ & _ & ->).
      rewrite E in L1. rewrite L1 in L2. injection L2 as <-.
      unfold euler, dt, max_time_size in E1, E2.
      rewrite Hf, HT, Hv, Hd in E1. rewrite E1 in E2. injection E2 as <-.
      rewrite E. reflexivity.
    + destruct S1 as [_ ->], S2 as [_ ->]. exact E.
Qed.

(** X13. The whole trajectory of the agent is the same in any two runs
    that agree on the update frequency, the duration, the speed, the divisor
    and the extra-robot flag: it does not depend on the draw of the initial
    positions, on the formation, on the graph, on the controllers or on the
    logging names. *)
Theorem agent_trajectory_independent
    erd hc1 hc2 cc1 cc2 names1 names2 rand1 rand2 c1 c2 st1 st2 :
  freq c1 = freq c2 -> max_T c1 = max_T c2 ->
  v_huil c1 = v_huil c2 -> division c1 = division c2 ->
  extra_robot c1 = extra_robot c2 ->
  simulate hc1 cc1 erd names1 rand1 c1 = Some st1 ->
  simulate hc2 cc2 erd names2 rand2 c2 = Some st2 ->
  huil_p st1 = huil_p st2.
Proof.
  intros Hf HT Hv Hd He H1 H2. unfold simulate in H1, H2.
  apply bind_Some in H1 as (pc1 & _ & H1).
  apply bind_Some in H1 as (s1 & I1 & H1).
  apply bind_Some in H2 as (pc2 & _ & H2).
  apply bind_Some in H2 as (s2 & I2 & H2).
  assert (ET : max_time_size c1 = max_time_size c2)
    by (unfold max_time_size; rewrite Hf, HT; reflexivity).
  rewrite <- ET in H2.
  apply (loop_agent_agrees erd hc1 hc2 cc1 cc2 names1 names2 c1 c2 pc1 pc2
           (max_time_size c1 - 1) Hf HT Hv Hd He 0 s1 s2 st1 st2);
    [| exact H1 | exact H2].
  unfold initial_state in I1, I2.
  apply bind_Some in I1 as (k1 & _ & I1).
  apply bind_Some in I1 as (k2 & _ & I1).
  apply bind_Some in I1 as (p1 & _ & I1).
  apply bind_Some in I1 as (h1 & Hh1 & I1).
  injection I1 as <-.
  apply bind_Some in I2 as (k3 & _ & I2).
  apply bind_Some in I2 as (k4 & _ & I2).
  apply bind_Some in I2 as (p2 & _ & I2).
  apply bind_Some in I2 as (h2 & Hh2 & I2).
  injection I2 as <-. cbn [huil_p].
  apply set_col_inv in Hh1 as (_ & _ & ->), Hh2 as (_ & _ & ->).
  rewrite ET. reflexivity.
Qed.

Lemma agent_trajectory_independent_witness :
  exists st1 st2,
    simulate sample_huil pass_controller sample_agent (Some (sample_names 1 2))
             half_draw small_config = Some st1 /\
    simulate sample_huil halt_controller sample_agent (Some (sample_names 1 2))
             (fun _ => 1 # 4) wedge_extra_config = Some st2 /\
    huil_p st1 = huil_p st2.
Proof.
  destruct (simulate sample_huil pass_controller sample_agent
              (Some (sample_names 1 2)) half_draw small_config)
    as [st1|] eqn:E1; [| vm_compute in E1; discriminate E1].
  destruct (simulate sample_huil halt_controller sample_agent
              (Some (sample_names 1 2)) (fun _ => 1 # 4) wedge_extra_config)
    as [st2|] eqn:E2; [| vm_compute in E2; discriminate E2].
  exists st1, st2. split; [reflexivity|]. split; [reflexivity|].
  exact (agent_trajectory_independent sample_agent _ _ _ _ _ _ _ _
           small_config wedge_extra_config st1 st2
           eq_refl eq_refl eq_refl eq_refl eq_refl E1 E2).
Defined.

(** X14. The loop never writes the first columns again: at the end of a
    run column 0 of the position history is still the initial draw
    x_max r - x_max/2 and column 0 of the agent history is still (-5, 20). *)
Theorem first_columns_kept hc cc erd names rand c st :
  simulate hc cc erd names rand c = Some st ->
  p st !! 0%nat = Some (initial_positions rand c) /\
  huil_p st !! 0%nat = Some [-5; 20].
Proof.
  intros H. unfold simulate in H.
  apply bind_Some in H as (pc & Hpc & H).
  apply bind_Some in H as (st0 & H0 & H).
  set (I := fun (_ : nat) (s : sim_state) =>
              p s !! 0%nat = Some (initial_positions rand c) /\
              huil_p s !! 0%nat = Some [-5; 20]).
  apply (loop_invariant I hc cc erd names c pc)
    with (n := (max_time_size c - 1)%nat) (a := 0%nat) (st := st0);
    [| | exact H].
  - intros i s s' tr [Hp Hh] Hstep. unfold I.
    pose proof (step_inv_agent _ _ _ _ _ _ _ _ _ _ Hstep) as Ha.
    apply step_inv_robots in Hstep
      as (pi & k & pnext & _ & _ & _ & _ & _ & _ & _ & _ & _ & ->).
    split.
    + rewrite list_lookup_insert_ne by lia. exact Hp.
    + destruct (extra_robot c).
      * destruct Ha as (h & hnext & _ & _ & _ & _ & _ & ->).
        rewrite list_lookup_insert_ne by lia. exact Hh.
      * destruct Ha as [_ ->]. exact Hh.
  - unfold I, initial_state in *.
    apply bind_Some in H0 as (k1 & _ & H0).
    apply bind_Some in H0 as (k2 & _ & H0).
    apply bind_Some in H0 as (p0 & Hp0 & H0).
    apply bind_Some in H0 as (hp0 & Hh0 & H0).
    injection H0 as <-. cbn [p huil_p].
    apply set_col_inv in Hp0 as (L1 & _ & ->), Hh0 as (L2 & _ & ->).
    split; apply list_lookup_insert_eq; assumption.
Qed.

Lemma first_columns_kept_witness :
  exists st,
    simulate sample_huil pass_controller sample_agent (Some (sample_names 1 2))
             half_draw small_config = Some st /\
    p st !! 0%nat = Some (initial_positions half_draw small_config) /\
    huil_p st !! 0%nat = Some [-5; 20].
Proof.
  destruct (simulate sample_huil pass_controller sample_agent
              (Some (sample_names 1 2)) half_draw small_config)
    as [st|] eqn:E; [| vm_compute in E; discriminate E].
  exists st. split; [reflexivity|].
  exact (first_columns_kept _ _ _ _ _ _ _ E).
Defined.

(** ** Visualisation (main.py, lines 259-308) *)

Lemma mapM_cons {A B} (f : A -> option B) x l :
  mapM f (x :: l) = y ← f x; k ← mapM f l; Some (y :: k).
Proof. reflexivity. Qed.

Lemma insert_middle {A} (l1 l2 : list A) x y n :
  n = length l1 -> <[n := y]> (l1 ++ x :: l2) = l1 ++ y :: l2.
Proof.
  intros ->. rewrite insert_app_r_alt by lia. rewrite Nat.sub_diag. reflexivity.
Qed.

(** The loop over the robots rebuilds the circles from column [col],
    whatever the circles held before. *)
Lemma place_robots_rebuild M col reg n : forall a pre old post ax,
  length pre = a -> length old = n ->
  Forall (fun s => exists pt, s = Circle pt r_robot) old ->
  place_robots M col reg (seq a n) (pre ++ old ++ post) ax =
  new ← mapM (robot_circle M col) (seq a n);
  Some (pre ++ new ++ post, if reg then ax ++ seq a n else ax).
Proof.
  induction n as [|n IH]; intros a pre old post ax Hpre Hold Hc.
  - destruct old; [| discriminate Hold]. cbn.
    destruct reg; rewrite ?app_nil_r; reflexivity.
  - destruct old as [|s old]; [discriminate Hold|].
    apply Forall_cons in Hc as [[pt0 ->] Hc].
    cbn [length] in Hold.
    cbn [seq place_robots]. rewrite mapM_cons.
    assert (Erc : robot_circle M col a =
                  pt ← robot_point M (Z.of_nat a) col;
                  Some (Circle pt r_robot)) by reflexivity.
    rewrite Erc. clear Erc.
    destruct (robot_point M (Z.of_nat a) col) as [pt|]; [| reflexivity].
    cbn [mbind option_bind app].
    rewrite (list_lookup_middle pre (old ++ post) _ a) by congruence.
    cbn [mbind option_bind set_center].
    rewrite (insert_middle pre (old ++ post) _ _ a) by congruence.
    replace (pre ++ Circle pt r_robot :: old ++ post)
      with ((pre ++ [Circle pt r_robot]) ++ old ++ post)
      by (rewrite <- app_assoc; reflexivity).
    rewrite (IH (S a) (pre ++ [Circle pt r_robot]) old post)
      by (rewrite ?length_app; cbn; (lia || assumption)).
    destruct (mapM (robot_circle M col) (seq (S a) n)) as [new|];
      [| reflexivity].
    cbn [mbind option_bind]. rewrite <- app_assoc. cbn [app].
    destruct reg; [rewrite <- app_assoc|]; reflexivity.
Qed.

(** The loop over the edges rebuilds the lines from column [col]. *)
Lemma place_edges_rebuild M col reg n es : forall i pre old post ax,
  length pre = (n + i)%nat -> length old = length es ->
  Forall (fun s => exists x y, s = Line2D x y) old ->
  place_edges M col reg n es i (pre ++ old ++ post) ax =
  new ← mapM (edge_line M col) es;
  Some (pre ++ new ++ post,
        if reg then ax ++ seq (n + i) (length es) else ax).
Proof.
  induction es as [|e es IH]; intros i pre old post ax Hpre Hold Hl.
  - destruct old; [| discriminate Hold]. cbn.
    destruct reg; rewrite ?app_nil_r; reflexivity.
  - destruct old as [|s old]; [discriminate Hold|].
    apply Forall_cons in Hl as [(x0 & y0 & ->) Hl].
    cbn [length] in Hold.
    cbn [place_edges length seq]. rewrite mapM_cons.
    assert (Eel : edge_line M col e =
                  d ← edge_data M e col; Some (Line2D (fst d) (snd d)))
      by reflexivity.
    rewrite Eel. clear Eel. cbn [app].
    rewrite (list_lookup_middle pre (old ++ post) _ (n + i)) by congruence.
    cbn [mbind option_bind].
    destruct (edge_data M e col) as [d|]; [| reflexivity].
    cbn [mbind option_bind set_data].
    rewrite (insert_middle pre (old ++ post) _ _ (n + i)) by congruence.
    replace (pre ++ Line2D (fst d) (snd d) :: old ++ post)
      with ((pre ++ [Line2D (fst d) (snd d)]) ++ old ++ post)
      by (rewrite <- app_assoc; reflexivity).
    rewrite (IH (S i) (pre ++ [Line2D (fst d) (snd d)]) old post)
      by (rewrite ?length_app; cbn in *; (lia || assumption)).
    destruct (mapM (edge_line M col) es) as [new|]; [| reflexivity].
    cbn [mbind option_bind]. rewrite <- app_assoc. cbn [app].
    destruct reg; [rewrite <- app_assoc|]; try reflexivity.
    replace (n + S i)%nat with (S (n + i)) by lia. reflexivity.
Qed.

(** The last step rebuilds the circle of the extra robot. *)
Lemma place_extra_rebuild c H col reg pre extra ax :
  (if extra_robot c then exists pt, extra = [Circle pt r_robot]
   else extra = []) ->
  place_extra c H col reg (pre ++ extra) ax =
  new ← agent_circle c H col;
  Some (pre ++ new,
        if reg then ax ++ seq (length pre) (length extra) else ax).
Proof.
  intros He. unfold place_extra, agent_circle.
  destruct (extra_robot c).
  - destruct He as [pt0 ->].
    destruct (agent_point H col) as [pt|]; [| reflexivity].
    cbn [mbind option_bind]. unfold last_index.
    rewrite length_app. cbn [length]. rewrite Nat.add_1_r.
    cbn [mbind option_bind].
    rewrite (list_lookup_middle pre [] _ (length pre)) by reflexivity.
    cbn [mbind option_bind set_center].
    rewrite (insert_middle pre [] _ _ (length pre)) by reflexivity.
    reflexivity.
  - subst extra. cbn. destruct reg; rewrite ?app_nil_r; reflexivity.
Qed.

Lemma shapes_at_layout c es st col sh :
  shapes_at c es st col = Some sh -> layout c es sh.
Proof.
  unfold shapes_at. intros H.
  apply bind_Some in H as (circles & Hc & H).
  apply bind_Some in H as (lines & Hl & H).
  apply bind_Some in H as (extra & He & H).
  injection H as <-. exists circles, lines, extra.
  split; [reflexivity|].
  apply mapM_Some in Hc, Hl.
  split; [rewrite <- (Forall2_length _ _ _ Hc); apply length_seq|].
  split.
  { apply Forall_forall. intros s Hs.
    apply list_elem_of_lookup in Hs as [i Hi].
    destruct (Forall2_lookup_r _ _ _ _ _ Hc Hi) as (x & _ & Hx).
    unfold robot_circle in Hx.
    apply bind_Some in Hx as (pt & _ & Hx). injection Hx as <-.
    eexists. reflexivity. }
  split; [symmetry; apply (Forall2_length _ _ _ Hl)|].
  split.
  { apply Forall_forall. intros s Hs.
    apply list_elem_of_lookup in Hs as [i Hi].
    destruct (Forall2_lookup_r _ _ _ _ _ Hl Hi) as (x & _ & Hx).
    unfold edge_line in Hx.
    apply bind_Some in Hx as (d & _ & Hx). injection Hx as <-.
    eexists. eexists. reflexivity. }
  unfold agent_circle in He. destruct (extra_robot c).
  - apply bind_Some in He as (pt & _ & He). injection He as <-.
    eexists. reflexivity.
  - injection He as <-. reflexivity.
Qed.

(** X15. The shapes built before the animation starts: a circle of radius
    r_robot per robot at the robot's position in the first column, then a
    line per listed edge joining the positions of the two ends of the edge,
    and last the circle of the extra robot when there is one. *)
Theorem shapes_positions c es st sh :
  make_shapes c es st = Some sh ->
  length sh =
    (number_robots c + length es + (if extra_robot c then 1 else 0))%nat /\
  (forall i, (i < number_robots c)%nat ->
     exists pt, robot_point (p st) (Z.of_nat i) 0 = Some pt /\
                sh !! i = Some (Circle pt r_robot)) /\
  (forall i e, es !! i = Some e ->
     exists d, edge_data (p st) e 0 = Some d /\
               sh !! (number_robots c + i)%nat
                 = Some (Line2D (fst d) (snd d))) /\
  (extra_robot c = true ->
     exists pt, agent_point (huil_p st) 0 = Some pt /\
                sh !! (number_robots c + length es)%nat
                  = Some (Circle pt r_robot)).
Proof.
  unfold make_shapes, shapes_at. intros H.
  apply bind_Some in H as (circles & Hc & H).
  apply bind_Some in H as (lines & Hl & H).
  apply bind_Some in H as (extra & He & H).
  injection H as <-.
  apply mapM_Some in Hc, Hl.
  pose proof (Forall2_length _ _ _ Hc) as Lc. rewrite length_seq in Lc.
  pose proof (Forall2_length _ _ _ Hl) as Ll.
  split.
  { rewrite !length_app, <- Lc, <- Ll. unfold agent_circle in He.
    destruct (extra_robot c).
    - apply bind_Some in He as (pt & _ & He). injection He as <-.
      cbn [length]. lia.
    - injection He as <-. cbn [length]. lia. }
  split.
  { intros i Hi.
    destruct (Forall2_lookup_l _ _ _ i i Hc) as (s & Hs & Hf);
      [apply lookup_seq_lt; exact Hi|].
    unfold robot_circle in Hf.
    apply bind_Some in Hf as (pt & Hpt & Hf). injection Hf as <-.
    exists pt. split; [exact Hpt|].
    rewrite lookup_app_l by lia. exact Hs. }
  split.
  { intros i e Hi.
    destruct (Forall2_lookup_l _ _ _ i e Hl Hi) as (s & Hs & Hf).
    unfold edge_line in Hf.
    apply bind_Some in Hf as (d & Hd & Hf). injection Hf as <-.
    exists d. split; [exact Hd|].
    rewrite lookup_app_r by lia. rewrite <- Lc.
    replace (number_robots c + i - number_robots c)%nat with i by lia.
    apply lookup_lt_Some in Hi.
    rewrite lookup_app_l by lia. exact Hs. }
  intros Hex. unfold agent_circle in He. rewrite Hex in He.
  apply bind_Some in He as (pt & Hpt & He). injection He as <-.
  exists pt. split; [exact Hpt|].
  rewrite lookup_app_r by lia. rewrite <- Lc.
  replace (number_robots c + length es - number_robots c)%nat
    with (length es) by lia.
  rewrite lookup_app_r by lia. rewrite <- Ll, Nat.sub_diag. reflexivity.
Qed.

Lemma shapes_positions_witness :
  exists sh,
    make_shapes small_config [(1, 2)%Z] small_state = Some sh /\
    length sh =
      (number_robots small_config + length [(1, 2)%Z]
       + (if extra_robot small_config then 1 else 0))%nat /\
    (forall i, (i < number_robots small_config)%nat ->
       exists pt, robot_point (p small_state) (Z.of_nat i) 0 = Some pt /\
                  sh !! i = Some (Circle pt r_robot)) /\
    (forall i e, [(1, 2)%Z] !! i = Some e ->
       exists d, edge_data (p small_state) e 0 = Some d /\
                 sh !! (number_robots small_config + i)%nat
                   = Some (Line2D (fst d) (snd d))) /\
    (extra_robot small_config = true ->
       exists pt, agent_point (huil_p small_state) 0 = Some pt /\
                  sh !! (number_robots small_config + length [(1, 2)%Z])%nat
                    = Some (Circle pt r_robot)).
Proof.
  destruct (make_shapes small_config [(1, 2)%Z] small_state) as [sh|] eqn:E;
    [| vm_compute in E; discriminate E].
  exists sh. split; [reflexivity|].
  exact (shapes_positions small_config [(1, 2)%Z] small_state sh E).
Defined.

(** X16. Animating a frame puts every shape where building the shapes
    afresh from that column of the histories would put it: what is drawn
    depends on the frame alone, not on the frames drawn before.  The text
    shows the whole seconds frame/freq; the call raises exactly when the
    column cannot be read or freq is 0. *)
Theorem animate_rebuilds c es st frame sh :
  layout c es sh ->
  animate c es st frame sh =
    sh' ← shapes_at c es st frame;
    if (freq c =? 0)%nat then None
    else Some (sh', Seconds (frame / freq c)).
Proof.
  intros (circles & lines & extra & -> & Lc & Fc & Ll & Fl & He).
  unfold animate, shapes_at.
  change (circles ++ lines ++ extra) with ([] ++ circles ++ lines ++ extra).
  rewrite (place_robots_rebuild (p st) frame false (number_robots c) 0
             [] circles (lines ++ extra) [] eq_refl Lc Fc).
  destruct (mapM (robot_circle (p st) frame) (seq 0 (number_robots c)))
    as [circles'|] eqn:Ec; [| reflexivity].
  cbn [mbind option_bind app].
  assert (Lc' : length circles' = (number_robots c + 0)%nat).
  { apply mapM_Some in Ec. rewrite <- (Forall2_length _ _ _ Ec), length_seq.
    lia. }
  rewrite (place_edges_rebuild (p st) frame false (number_robots c) es 0
             circles' lines extra [] Lc' Ll Fl).
  destruct (mapM (edge_line (p st) frame) es) as [lines'|] eqn:El;
    [| reflexivity].
  cbn [mbind option_bind].
  rewrite app_assoc.
  rewrite (place_extra_rebuild c (huil_p st) frame false
             (circles' ++ lines') extra [] He).
  destruct (agent_circle c (huil_p st) frame) as [extra'|]; [| reflexivity].
  cbn [mbind option_bind]. rewrite <- app_assoc. reflexivity.
Qed.

Lemma animate_rebuilds_witness :
  animate small_config [(1, 2)%Z] small_state 0
          [ Circle (9, 9) r_robot; Circle (8, 8) r_robot;
            Line2D (7, 7) (6, 6); Circle (5, 5) r_robot ] =
    sh' ← shapes_at small_config [(1, 2)%Z] small_state 0;
    if (freq small_config =? 0)%nat then None
    else Some (sh', Seconds (0 / freq small_config)).
Proof.
  apply (animate_rebuilds small_config [(1, 2)%Z] small_state 0).
  exists [Circle (9, 9) r_robot; Circle (8, 8) r_robot],
         [Line2D (7, 7) (6, 6)], [Circle (5, 5) r_robot].
  split; [reflexivity|]. split; [reflexivity|].
  split; [repeat constructor; eexists; reflexivity|].
  split; [reflexivity|].
  split; [repeat constructor; eexists; eexists; reflexivity|].
  eexists. reflexivity.
Defined.

(** X17. [init] leaves the shapes as they were built, adds every one of
    them to the axes once, in the order of the list, and writes the text
    'T=0.0 s'. *)
Theorem init_keeps_shapes c es st sh ax :
  make_shapes c es st = Some sh ->
  init c es st sh ax = Some (sh, ax ++ seq 0 (length sh), InitText).
Proof.
  intros H. pose proof (shapes_at_layout c es st 0 sh H)
    as (circles & lines & extra & E & Lc & Fc & Ll & Fl & He).
  unfold make_shapes, shapes_at in H. unfold init. subst sh.
  change (place_robots (p st) 0 true (seq 0 (number_robots c))
            (circles ++ lines ++ extra) ax)
    with (place_robots (p st) 0 true (seq 0 (number_robots c))
            ([] ++ circles ++ lines ++ extra) ax).
  rewrite (place_robots_rebuild (p st) 0 true (number_robots c) 0
             [] circles (lines ++ extra) ax eq_refl Lc Fc).
  destruct (mapM (robot_circle (p st) 0) (seq 0 (number_robots c)))
    as [circles'|] eqn:Ec; [| discriminate H].
  cbn [mbind option_bind app] in H |- *.
  assert (Lc' : length circles' = (number_robots c + 0)%nat).
  { apply mapM_Some in Ec. rewrite <- (Forall2_length _ _ _ Ec), length_seq.
    lia. }
  rewrite (place_edges_rebuild (p st) 0 true (number_robots c) es 0
             circles' lines extra _ Lc' Ll Fl).
  destruct (mapM (edge_line (p st) 0) es) as [lines'|] eqn:El;
    [| discriminate H].
  cbn [mbind option_bind] in H |- *.
  rewrite app_assoc.
  rewrite (place_extra_rebuild c (huil_p st) 0 true
             (circles' ++ lines') extra _ He).
  destruct (agent_circle c (huil_p st) 0) as [extra'|]; [| discriminate H].
  cbn [mbind option_bind] in H |- *.
  injection H as H. rewrite <- app_assoc. rewrite H.
  assert (Ll' : length lines' = length es).
  { apply mapM_Some in El. symmetry. apply (Forall2_length _ _ _ El). }
  assert (Le : length (circles ++ lines ++ extra)
               = (number_robots c + length es + length extra)%nat).
  { rewrite !length_app. lia. }
  rewrite Le, length_app, Lc', Ll', Nat.add_0_r.
  rewrite <- !app_assoc, <- !seq_app, Nat.add_assoc. reflexivity.
Qed.

Lemma init_keeps_shapes_witness :
  exists sh,
    make_shapes small_config [(1, 2)%Z] small_state = Some sh /\
    init small_config [(1, 2)%Z] small_state sh []
      = Some (sh, [] ++ seq 0 (length sh), InitText).
Proof.
  destruct (make_shapes small_config [(1, 2)%Z] small_state) as [sh|] eqn:E;
    [| vm_compute in E; discriminate E].
  exists sh. split; [reflexivity|].
  exact (init_keeps_shapes small_config [(1, 2)%Z] small_state sh [] E).
Defined.

Lemma simulate_shaped hc cc erd names rand c st :
  simulate hc cc erd names rand c = Some st ->
  shaped c (max_time_size c - 1) st.
Proof.
  unfold simulate. intros H.
  apply bind_Some in H as (pc & _ & H).
  apply bind_Some in H as (st0 & H0 & H).
  apply initial_state_shaped in H0.
  apply (loop_invariant (shaped c) hc cc erd names c pc
           (fun i s s' tr => step_shaped hc cc erd names c pc i s s' tr)
           _ _ _ _ H0 H).
Qed.

Lemma py_index_is_Some n k :
  (- Z.of_nat n <= k < Z.of_nat n)%Z -> is_Some (py_index n k).
Proof.
  intros Hk. unfold py_index.
  destruct ((0 <=? k)%Z && (k <? Z.of_nat n)%Z) eqn:E1; [eexists; reflexivity|].
  destruct ((- Z.of_nat n <=? k)%Z && (k <? 0)%Z) eqn:E2;
    [eexists; reflexivity|].
  exfalso. apply andb_false_iff in E1. apply andb_false_iff in E2.
  rewrite !Z.leb_gt, !Z.ltb_ge in *. lia.
Qed.

Lemma py_index_range n k c : py_index n k = Some c ->
  (- Z.of_nat n <= k < Z.of_nat n)%Z.
Proof.
  unfold py_index. intros H.
  destruct ((0 <=? k)%Z && (k <? Z.of_nat n)%Z) eqn:E1.
  - apply andb_true_iff in E1 as [H1 H2].
    apply Z.leb_le in H1. apply Z.ltb_lt in H2. lia.
  - destruct ((- Z.of_nat n <=? k)%Z && (k <? 0)%Z) eqn:E2; [| discriminate H].
    apply andb_true_iff in E2 as [H1 H2].
    apply Z.leb_le in H1. apply Z.ltb_lt in H2. lia.
Qed.

Lemma cell_is_Some (M : list vec) column r col :
  M !! col = Some column ->
  (- Z.of_nat (length column) <= r < Z.of_nat (length column))%Z ->
  is_Some (cell M r col).
Proof.
  intros Hc Hr. unfold cell. rewrite Hc. cbn [mbind option_bind].
  destruct (py_index_is_Some _ _ Hr) as [k Hk]. rewrite Hk.
  cbn [mbind option_bind].
  apply lookup_lt_is_Some_2. eapply py_index_lt. exact Hk.
Qed.

(** X18. After a run that went through, every frame of the animation can
    be drawn: for every column of the histories the robots, the lines of
    all listed edges -- also of edges listed under a zero or negative
    label, which index from the end -- and the extra robot can be read, and
    [animate] returns the shapes of that column with the text of its whole
    seconds. *)
Theorem every_frame_drawable hc cc erd names rand c pc st frame sh :
  simulate hc cc erd names rand c = Some st ->
  precalculate c = Some pc ->
  (frame < max_T c * freq c)%nat ->
  layout c (edges (pc_graph pc)) sh ->
  exists sh',
    shapes_at c (edges (pc_graph pc)) st frame = Some sh' /\
    animate c (edges (pc_graph pc)) st frame sh
      = Some (sh', Seconds (frame / freq c)).
Proof.
  intros Hsim Hpc Hf Hlay.
  destruct (simulate_shaped _ _ _ _ _ _ _ Hsim) as (Lp & Fp & Lh & Fh & _).
  destruct (precalculate_inv c pc Hpc) as (g & aw & Hg & _ & Eg & _).
  rewrite Eg in *.
  destruct (build_graph_inv c g Hg) as (_ & _ & I3 & _).
  unfold max_time_size in Lp, Lh.
  destruct (lookup_lt_is_Some_2 (p st) frame ltac:(lia)) as [pcol Hpcol].
  destruct (lookup_lt_is_Some_2 (huil_p st) frame ltac:(lia)) as [hcol Hhcol].
  pose proof (proj1 (Forall_lookup _ _) Fp _ _ Hpcol) as Lpc.
  pose proof (proj1 (Forall_lookup _ _) Fh _ _ Hhcol) as Lhc.
  unfold dim in Lpc, Lhc.
  assert (Hcell : forall r,
            (- (2 * Z.of_nat (number_robots c)) <= r
               < 2 * Z.of_nat (number_robots c))%Z ->
            is_Some (cell (p st) r frame)).
  { intros r Hr. apply (cell_is_Some _ pcol); [exact Hpcol|]. rewrite Lpc. lia. }
  assert (Hfreq : (freq c =? 0)%nat = false).
  { apply Nat.eqb_neq. intros E. rewrite E in Hf. lia. }
  assert (Hshapes : is_Some (shapes_at c (edges g) st frame)).
  { unfold shapes_at.
    destruct (mapM_is_Some_2 (robot_circle (p st) frame)
                (seq 0 (number_robots c))) as [circles ->].
    { apply Forall_forall. intros i Hi. apply elem_of_seq in Hi.
      unfold compose, robot_circle, robot_point.
      destruct (Hcell (2 * Z.of_nat i)%Z ltac:(lia)) as [x ->].
      destruct (Hcell (2 * Z.of_nat i + 1)%Z ltac:(lia)) as [y ->].
      eexists. reflexivity. }
    cbn [mbind option_bind].
    destruct (mapM_is_Some_2 (edge_line (p st) frame) (edges g))
      as [lines ->].
    { eapply Forall_impl; [exact I3|]. cbn.
      intros e (i & nb & Hi & Hfst & _ & _ & [k Hk] & _).
      apply py_index_range in Hk.
      unfold edge_line, edge_data.
      destruct (Hcell (2 * (fst e - 1))%Z ltac:(lia)) as [xi ->].
      destruct (Hcell (2 * (snd e - 1))%Z ltac:(lia)) as [xj ->].
      destruct (Hcell (2 * (fst e - 1) + 1)%Z ltac:(lia)) as [yi ->].
      destruct (Hcell (2 * (snd e - 1) + 1)%Z ltac:(lia)) as [yj ->].
      eexists. reflexivity. }
    cbn [mbind option_bind].
    unfold agent_circle, agent_point.
    destruct (extra_robot c); [| eexists; reflexivity].
    destruct (cell_is_Some (huil_p st) hcol 0%Z frame Hhcol ltac:(lia))
      as [x ->].
    destruct (cell_is_Some (huil_p st) hcol 1%Z frame Hhcol ltac:(lia))
      as [y ->].
    eexists. reflexivity. }
  destruct Hshapes as [sh' Hsh']. exists sh'. split; [exact Hsh'|].
  rewrite (animate_rebuilds c (edges g) st frame sh Hlay), Hsh'.
  cbn [mbind option_bind]. rewrite Hfreq. reflexivity.
Qed.

Lemma every_frame_drawable_witness :
  exists st sh',
    simulate sample_huil pass_controller sample_agent (Some (sample_names 1 2))
             half_draw small_config = Some st /\
    shapes_at small_config (edges (pc_graph small_precalc)) st 3 = Some sh' /\
    animate small_config (edges (pc_graph small_precalc)) st 3
            [ Circle (9, 9) r_robot; Circle (8, 8) r_robot;
              Line2D (7, 7) (6, 6); Circle (5, 5) r_robot ]
      = Some (sh', Seconds (3 / freq small_config)).
Proof.
  destruct (simulate sample_huil pass_controller sample_agent
              (Some (sample_names 1 2)) half_draw small_config)
    as [st|] eqn:E; [| vm_compute in E; discriminate E].
  exists st.
  destruct (every_frame_drawable sample_huil pass_controller sample_agent
              (Some (sample_names 1 2)) half_draw small_config small_precalc
              st 3
              [ Circle (9, 9) r_robot; Circle (8, 8) r_robot;
                Line2D (7, 7) (6, 6); Circle (5, 5) r_robot ] E)
    as (sh' & H1 & H2).
  - vm_compute. reflexivity.
  - vm_compute. lia.
  - exists [Circle (9, 9) r_robot; Circle (8, 8) r_robot],
           [Line2D (7, 7) (6, 6)], [Circle (5, 5) r_robot].
    split; [reflexivity|]. split; [reflexivity|].
    split; [repeat constructor; eexists; reflexivity|].
    split; [reflexivity|].
    split; [repeat constructor; eexists; eexists; reflexivity|].
    eexists. reflexivity.
  - exists sh'. split; [reflexivity|]. split; assumption.
Defined.

(** ** The default neighbour lists (main.py, line 59) *)

Lemma complete_neighbours_lookup n i nb :
  complete_neighbours n !! i = Some nb ->
  (i < n)%nat /\
  nb = (fun k : nat => (Z.of_nat k + 1)%Z) <$>
         filter (fun k : nat => k <> i) (seq 0 n).
Proof.
  intros H. unfold complete_neighbours in H. rewrite map_lookup in H.
  destruct (seq 0 n !! i) as [i'|] eqn:E; [| discriminate H].
  apply lookup_seq in E as [-> Hi]. cbn [fmap option_fmap option_map] in H.
  injection H as <-. split; [exact Hi | reflexivity].
Qed.

(** X19. The comprehension of line 59 gives one list per robot, and the
    list of the robot of index i holds every label from 1 to n except its
    own label i+1, each of them once. *)
Theorem complete_neighbours_members n i nb :
  complete_neighbours n !! i = Some nb ->
  length (complete_neighbours n) = n /\
  NoDup nb /\
  forall j, j ∈ nb <-> (1 <= j <= Z.of_nat n)%Z /\ j <> (Z.of_nat i + 1)%Z.
Proof.
  intros H. split; [apply complete_neighbours_length|].
  destruct (complete_neighbours_wf n i nb H) as [Hnd Hin].
  rewrite complete_neighbours_length in Hin.
  split; [exact Hnd|]. intros j. split; [apply Hin|].
  intros [Hr Hne].
  apply complete_neighbours_lookup in H as [Hi ->].
  apply list_elem_of_fmap. exists (Z.to_nat (j - 1)).
  split; [lia|].
  apply list_elem_of_filter. split; [lia|]. apply elem_of_seq. lia.
Qed.

Lemma complete_neighbours_members_witness :
  length (complete_neighbours 21) = 21%nat /\
  NoDup (nth 5 (complete_neighbours 21) []) /\
  forall j, j ∈ nth 5 (complete_neighbours 21) [] <->
            (1 <= j <= Z.of_nat 21)%Z /\ j <> (Z.of_nat 5 + 1)%Z.
Proof.
  apply (complete_neighbours_members 21 5). reflexivity.
Defined.

(** X20. With the neighbour lists of line 59 the graph loop goes through
    for every size of the formation, and the edge list it leaves holds
    exactly the pairs (a, b) of labels with a < b: every edge once, from its
    smaller end. *)
Theorem complete_graph_edges c :
  neighbours c = complete_neighbours (number_robots c) ->
  exists g,
    build_graph c = Some g /\
    NoDup (edges g) /\
    forall a b, (a, b) ∈ edges g <->
                (1 <= a < b)%Z /\ (b <= Z.of_nat (number_robots c))%Z.
Proof.
  intros Hn.
  assert (Hwf : forall i nb j, neighbours c !! i = Some nb -> j ∈ nb ->
            (1 <= j <= Z.of_nat (number_robots c))%Z /\
            j <> (Z.of_nat i + 1)%Z).
  { intros i nb j Hnb Hj. rewrite Hn in Hnb.
    destruct (complete_neighbours_members _ _ _ Hnb) as (_ & _ & Hm).
    apply Hm. exact Hj. }
  assert (Hs : is_Some (build_graph c)).
  { apply build_graph_succeeds_iff. split.
    - rewrite Hn, complete_neighbours_length. lia.
    - intros i nb j _ Hnb Hj. destruct (Hwf i nb j Hnb Hj) as [Hr _]. lia. }
  destruct Hs as [g Hg]. exists g. split; [exact Hg|].
  destruct (build_graph_inv c g Hg) as (_ & [Hnd _] & I3 & I4 & _).
  split; [exact Hnd|].
  assert (Hfwd : forall a b, (a, b) ∈ edges g ->
            (1 <= a < b)%Z /\ (b <= Z.of_nat (number_robots c))%Z).
  { intros a b Hab.
    destruct (proj1 (Forall_forall _ _) I3 _ Hab)
      as (i & nb & Hi & Hf & Hnb & Hsn & _ & Hord).
    cbn [fst snd] in Hf, Hsn, Hord.
    destruct (Hwf i nb b Hnb Hsn) as [Hr Hne].
    destruct (Z.lt_ge_cases a b) as [Hlt|Hge]; [lia|].
    exfalso.
    assert (Hk : (Z.to_nat (b - 1) < i)%nat) by lia.
    destruct (lookup_lt_is_Some_2 (neighbours c) (Z.to_nat (b - 1)))
      as [nbk Hnbk].
    { rewrite Hn, complete_neighbours_length. lia. }
    apply (Hord _ nbk Hk Hnbk); [lia|].
    rewrite Hn in Hnbk.
    destruct (complete_neighbours_members _ _ _ Hnbk) as (_ & _ & Hm).
    apply Hm. lia. }
  intros a b. split; [apply Hfwd|].
  intros [Hab Hb].
  destruct (lookup_lt_is_Some_2 (neighbours c) (Z.to_nat (a - 1)))
    as [nb Hnb].
  { rewrite Hn, complete_neighbours_length. lia. }
  assert (Hin : b ∈ nb).
  { pose proof Hnb as Hnb'. rewrite Hn in Hnb'.
    destruct (complete_neighbours_members _ _ _ Hnb') as (_ & _ & Hm).
    apply Hm. lia. }
  destruct (I4 (Z.to_nat (a - 1)) nb b ltac:(lia) Hnb Hin) as [Hc|Hc].
  - replace (Z.of_nat (Z.to_nat (a - 1)) + 1)%Z with a in Hc by lia. exact Hc.
  - replace (Z.of_nat (Z.to_nat (a - 1)) + 1)%Z with a in Hc by lia.
    apply Hfwd in Hc. lia.
Qed.

Lemma complete_graph_edges_witness :
  exists g,
    build_graph default_config = Some g /\
    NoDup (edges g) /\
    forall a b, (a, b) ∈ edges g <->
                (1 <= a < b)%Z /\
                (b <= Z.of_nat (number_robots default_config))%Z.
Proof.
  apply (complete_graph_edges default_config). reflexivity.
Defined.
